(** * A server-sent-events broker: registry, fan-out and client sessions

    Shallow embedding of [main.go]: the [Broker] struct, the [listen] loop
    that owns the client registry, and the [ServeHTTP] handler that bridges
    one HTTP request to the broker.

    - [Core] models [listen] on its own: one iteration of the [select] per
      request, with the registry a finite map keyed by channel identity.
    - [Fmt] models the one use of [fmt.Fprintf] the handler makes.
    - [Server] models the whole program as a labelled transition system:
      the [listen] goroutine, one [ServeHTTP] goroutine and one context
      watcher per request, the event source, and the unbuffered channels
      between them as rendezvous steps.
    - [Spec] holds the notions the specification words its properties
      with; [CoreFacts] and [ServerFacts] hold what is proved of the loop
      and of the program. *)

From Stdlib Require Import Strings.Byte.
From stdpp Require Import gmap strings list fin_maps.

(** A [chan []byte] is known by its identity only: two channels made by two
    calls of [make] differ. An event is a [[]byte]. *)
Abbreviation chan := positive (only parsing).
Abbreviation event := (list byte) (only parsing).

#[global] Instance byte_eq_decision : EqDecision byte.
Proof.
  intros x y. destruct (Byte.eqb x y) eqn:E.
  - left. by apply Byte.byte_dec_bl.
  - right. by apply Byte.eqb_false.
Defined.

(** ** The registry and fan-out loop ([listen], main.go:23-44) *)
Module Core.

(** What one iteration of the [select] can receive: a channel on
    [newClients], a channel on [closingClients], an event on [Notifier]. *)
Inductive request :=
| Attach (s : chan)
| Detach (s : chan)
| Publish (ev : event).

(** What one iteration does to the outside: the two [log.Printf] lines,
    with the value of [len(broker.clients)] they print, and the sends
    [clientMsgChan <- event]. *)
Inductive effect :=
| LogAdded (n : nat)
| LogRemoved (n : nat)
| Sent (c : chan) (ev : event).

#[global] Instance request_eq_dec : EqDecision request.
Proof. solve_decision. Defined.
#[global] Instance effect_eq_dec : EqDecision effect.
Proof. solve_decision. Defined.

(** [for clientMsgChan, _ := range broker.clients]: every key of the map is
    visited once, in an order the language leaves open. *)
Definition range_order (clients : gmap chan bool) (order : list chan) : Prop :=
  NoDup order ∧ (list_to_set order : gset chan) = dom clients.

#[global] Instance range_order_dec clients order : Decision (range_order clients order).
Proof. unfold range_order. apply _. Defined.

(** One iteration of the loop, a case of the [select] each. *)
Inductive listen_step (clients : gmap chan bool) :
  request → list effect → gmap chan bool → Prop :=
| listen_new s :
    listen_step clients (Attach s)
      [LogAdded (size (<[s:=true]> clients))] (<[s:=true]> clients)
| listen_closing s :
    listen_step clients (Detach s)
      [LogRemoved (size (delete s clients))] (delete s clients)
| listen_event ev order :
    range_order clients order →
    listen_step clients (Publish ev) ((λ c, Sent c ev) <$> order) clients.

(** The loop over a finite prefix of what it receives; the effects are kept
    per iteration. *)
Inductive listen (clients : gmap chan bool) :
  list request → list (list effect) → gmap chan bool → Prop :=
| listen_idle : listen clients [] [] clients
| listen_iter r rs out outs clients1 clients2 :
    listen_step clients r out clients1 →
    listen clients1 rs outs clients2 →
    listen clients (r :: rs) (out :: outs) clients2.

(** The registry after one request, and after a list of them: what
    [listen_step] does to the map, as a function. *)
Definition update (clients : gmap chan bool) (r : request) : gmap chan bool :=
  match r with
  | Attach s => <[s:=true]> clients
  | Detach s => delete s clients
  | Publish _ => clients
  end.

Definition registry (clients : gmap chan bool) (rs : list request) : gmap chan bool :=
  foldl update clients rs.

(** The loop run with the keys visited in the order [map_to_list] gives:
    one of the runs [listen] allows. *)
Definition listen_exec_step (clients : gmap chan bool) (r : request) : list effect :=
  match r with
  | Attach s => [LogAdded (size (<[s:=true]> clients))]
  | Detach s => [LogRemoved (size (delete s clients))]
  | Publish ev => (λ c, Sent c ev) <$> elements (dom clients)
  end.

Fixpoint listen_exec (clients : gmap chan bool) (rs : list request) : list (list effect) :=
  match rs with
  | [] => []
  | r :: rs' => listen_exec_step clients r :: listen_exec (update clients r) rs'
  end.

(** The events a sink is handed, in order, among some effects. *)
Definition received (s : chan) (out : list effect) : list event :=
  omap (λ e, match e with
             | Sent c ev => if decide (c = s) then Some ev else None
             | _ => None
             end) out.

(** The registry [NewServer] makes: [make(map[chan []byte]bool)]. *)
Definition no_clients : gmap chan bool := ∅.

End Core.

(** ** The frame format ([fmt.Fprintf], main.go:80) *)
Module Fmt.

(** The part of [fmt]'s formatting the handler relies on: [%s] with a
    [[]byte] operand writes the bytes of the operand as they are, [%%]
    writes a percent sign, every other byte of the format is copied. A verb
    the handler does not use, a missing or a spare operand give [None]. *)
Fixpoint Sprintf (format : list byte) (args : list (list byte)) : option (list byte) :=
  match format with
  | [] => match args with [] => Some [] | _ :: _ => None end
  | b :: rest =>
      if Byte.eqb b "%" then
        match rest with
        | v :: rest' =>
            if Byte.eqb v "s" then
              match args with
              | a :: args' => (λ out, a ++ out) <$> Sprintf rest' args'
              | [] => None
              end
            else if Byte.eqb v "%" then (λ out, "%"%byte :: out) <$> Sprintf rest' args
            else None
        | [] => None
        end
      else (λ out, b :: out) <$> Sprintf rest args
  end.

(** The format string of main.go:80, ["data: %s\n\n"]. *)
Definition frame_format : list byte :=
  String.list_byte_of_string "data: %s" ++ [x0a; x0a].

End Fmt.

(** ** The whole program: broker, sessions, event source *)
Module Server.

(** Where the [listen] goroutine is: waiting in the [select] (line 25), or
    inside the [range] loop of line 39, blocked in [clientMsgChan <- event]
    for the first channel of [todo]. *)
Inductive core_pc :=
| AtSelect
| AtSend (ev : event) (todo : list chan).

(** Where a [ServeHTTP] goroutine is. *)
Inductive handler_pc :=
| AtEntry                      (* line 49, the Flusher assertion *)
| Returned                     (* line 52, after http.Error *)
| AtRegister                   (* line 65, newClients <- msgChan *)
| AtReceive                    (* line 80, <-msgChan *)
| AtWrite (frame : list byte)  (* line 80, inside Fprintf: rw.Write(frame) *)
| AtFlush                      (* line 82, flusher.Flush() *)
| AtDeferred                   (* line 68, closingClients <- msgChan while unwinding *)
| Exited.                      (* the handler is gone *)

(** Where the goroutine of lines 73-76 is. *)
Inductive watcher_pc :=
| Unborn
| Waiting                      (* lines 74-75 *)
| Gone.

#[global] Instance core_pc_eq_dec : EqDecision core_pc.
Proof. solve_decision. Defined.
#[global] Instance handler_pc_eq_dec : EqDecision handler_pc.
Proof. solve_decision. Defined.
#[global] Instance watcher_pc_eq_dec : EqDecision watcher_pc.
Proof. solve_decision. Defined.

(** The [http.ResponseWriter] of a request, with what was done to it. *)
Record Transport := {
  flushable : bool;              (* rw.(http.Flusher) succeeds *)
  stalls : bool;                 (* a call of rw.Write never returns *)
  header : gmap string string;   (* rw.Header() *)
  status : option nat;           (* the status code, once written *)
  written : list (list byte);    (* the operands of the calls of rw.Write that ended *)
  failures : nat;                (* how many of them returned an error *)
  flushes : nat                  (* calls of Flush() *)
}.

(** One request: its handler, its watcher, whether [req.Context().Done()]
    is closed, its transport. *)
Record Session := {
  handler : handler_pc;
  watcher : watcher_pc;
  cancelled : bool;
  rw : Transport
}.

(** The [Broker] (main.go:11-20) with the goroutines around it. The
    channel that the handler of a session makes at line 63 is made once
    per session, and is named by the key of the session in [sessions].
    [newClients] and [closingClients] are unbuffered and hold nothing. *)
Record System := {
  core : core_pc;
  clients : gmap chan bool;
  Notifier : list event;
  sessions : gmap chan Session
}.

Inductive label :=
| Connect (c : chan) (flush stall : bool)  (* net/http calls ServeHTTP *)
| Reject (c : chan)                        (* lines 49-52 *)
| Open (c : chan)                          (* lines 49-63 *)
| Join (c : chan)                          (* line 65 meets lines 26-29; lines 67-76 *)
| Cancel (c : chan)                        (* the context of the request is done *)
| Close (c : chan)                         (* lines 74-75 meet lines 31-34 *)
| Emit (ev : event)                        (* line 108 *)
| Take (ev : event) (order : list chan)    (* lines 36-39 *)
| Deliver (c : chan) (ev : event)          (* line 40 meets line 80 *)
| Written (c : chan) (ok : bool)           (* Fprintf returns, its result dropped *)
| Flushed (c : chan)                       (* line 82 *)
| Panic (c : chan)                         (* rw.Write or Flush ends in a panic *)
| Unwind (c : chan).                       (* line 68 meets lines 31-34 *)

#[global] Instance label_eq_dec : EqDecision label.
Proof. solve_decision. Defined.

Definition fresh_transport (flush stall : bool) : Transport :=
  {| flushable := flush; stalls := stall; header := ∅; status := None;
     written := []; failures := 0; flushes := 0 |}.

Definition fresh_session (flush stall : bool) : Session :=
  {| handler := AtEntry; watcher := Unborn; cancelled := false;
     rw := fresh_transport flush stall |}.

Definition Header_Set (k v : string) (t : Transport) : Transport :=
  {| flushable := flushable t; stalls := stalls t; header := <[k:=v]> (header t);
     status := status t; written := written t; failures := failures t;
     flushes := flushes t |}.

(** [http.Error(rw, msg, code)]: a plain-text reply with the status [code]
    and the body [msg] followed by a newline; a Content-Length set before
    is removed. *)
Definition http_Error (msg : string) (code : nat) (t : Transport) : Transport :=
  {| flushable := flushable t; stalls := stalls t;
     header := <["X-Content-Type-Options":="nosniff"]>
                 (<["Content-Type":="text/plain; charset=utf-8"]>
                    (delete "Content-Length" (header t)));
     status := Some code;
     written := written t ++ [String.list_byte_of_string msg ++ [x0a]];
     failures := failures t; flushes := flushes t |}.

(** Lines 57-60. *)
Definition stream_headers (t : Transport) : Transport :=
  Header_Set "Access-Control-Allow-Origin" "*"
    (Header_Set "Connection" "keep-alive"
       (Header_Set "Cache-Control" "no-cache"
          (Header_Set "Content-Type" "text/event-stream" t))).

(** A call [rw.Write(frame)] that has ended, with an error ([err]) or
    without. *)
Definition rw_Write (frame : list byte) (err : bool) (t : Transport) : Transport :=
  {| flushable := flushable t; stalls := stalls t; header := header t;
     status := status t; written := written t ++ [frame];
     failures := (if err then S (failures t) else failures t);
     flushes := flushes t |}.

Definition rw_Flush (t : Transport) : Transport :=
  {| flushable := flushable t; stalls := stalls t; header := header t;
     status := status t; written := written t; failures := failures t;
     flushes := S (flushes t) |}.

Definition with_handler (h : handler_pc) (s : Session) : Session :=
  {| handler := h; watcher := watcher s; cancelled := cancelled s; rw := rw s |}.
Definition with_watcher (w : watcher_pc) (s : Session) : Session :=
  {| handler := handler s; watcher := w; cancelled := cancelled s; rw := rw s |}.
Definition with_cancelled (s : Session) : Session :=
  {| handler := handler s; watcher := watcher s; cancelled := true; rw := rw s |}.
Definition with_rw (t : Transport) (s : Session) : Session :=
  {| handler := handler s; watcher := watcher s; cancelled := cancelled s; rw := t |}.

Definition with_session (c : chan) (s : Session) (σ : System) : System :=
  {| core := core σ; clients := clients σ; Notifier := Notifier σ;
     sessions := <[c:=s]> (sessions σ) |}.
Definition with_clients (m : gmap chan bool) (σ : System) : System :=
  {| core := core σ; clients := m; Notifier := Notifier σ; sessions := sessions σ |}.
Definition with_core (k : core_pc) (σ : System) : System :=
  {| core := k; clients := clients σ; Notifier := Notifier σ; sessions := sessions σ |}.
Definition with_Notifier (q : list event) (σ : System) : System :=
  {| core := core σ; clients := clients σ; Notifier := q; sessions := sessions σ |}.

(** The [range] loop with the channels of [todo] still to be sent to: the
    loop of lines 39-41 ends, and the [select] is entered again, when none
    is left. *)
Definition resume (ev : event) (todo : list chan) : core_pc :=
  match todo with
  | [] => AtSelect
  | _ :: _ => AtSend ev todo
  end.

(** One step of the program. A send on an unbuffered channel and the
    receive it meets are one step. *)
Definition exec (σ : System) (l : label) : option System :=
  match l with
  | Connect c flush stall =>
      guard (sessions σ !! c = None);;
      Some (with_session c (fresh_session flush stall) σ)
  | Reject c =>
      s ← sessions σ !! c;
      guard (handler s = AtEntry ∧ flushable (rw s) = false);;
      Some (with_session c
              (with_handler Returned
                 (with_rw (http_Error "Streaming unsupported!" 500 (rw s)) s)) σ)
  | Open c =>
      s ← sessions σ !! c;
      guard (handler s = AtEntry ∧ flushable (rw s) = true);;
      Some (with_session c
              (with_handler AtRegister (with_rw (stream_headers (rw s)) s)) σ)
  | Join c =>
      s ← sessions σ !! c;
      guard (handler s = AtRegister ∧ core σ = AtSelect);;
      Some (with_session c (with_handler AtReceive (with_watcher Waiting s))
              (with_clients (<[c:=true]> (clients σ)) σ))
  | Cancel c =>
      s ← sessions σ !! c;
      guard (cancelled s = false);;
      Some (with_session c (with_cancelled s) σ)
  | Close c =>
      s ← sessions σ !! c;
      guard (watcher s = Waiting ∧ cancelled s = true ∧ core σ = AtSelect);;
      Some (with_session c (with_watcher Gone s)
              (with_clients (delete c (clients σ)) σ))
  | Emit ev =>
      guard (length (Notifier σ) < 1);;
      Some (with_Notifier (Notifier σ ++ [ev]) σ)
  | Take ev order =>
      match Notifier σ with
      | ev' :: q =>
          guard (core σ = AtSelect ∧ ev' = ev ∧ Core.range_order (clients σ) order);;
          Some (with_core (resume ev order) (with_Notifier q σ))
      | [] => None
      end
  | Deliver c ev =>
      match core σ with
      | AtSend ev' (c' :: rest) =>
          s ← sessions σ !! c;
          guard (c' = c ∧ ev' = ev ∧ handler s = AtReceive);;
          frame ← Fmt.Sprintf Fmt.frame_format [ev];
          Some (with_session c (with_handler (AtWrite frame) s)
                  (with_core (resume ev rest) σ))
      | _ => None
      end
  | Written c ok =>
      s ← sessions σ !! c;
      match handler s with
      | AtWrite frame =>
          guard (stalls (rw s) = false);;
          Some (with_session c
                  (with_handler AtFlush (with_rw (rw_Write frame (negb ok) (rw s)) s)) σ)
      | _ => None
      end
  | Flushed c =>
      s ← sessions σ !! c;
      guard (handler s = AtFlush);;
      Some (with_session c (with_handler AtReceive (with_rw (rw_Flush (rw s)) s)) σ)
  | Panic c =>
      s ← sessions σ !! c;
      match handler s with
      | AtWrite frame =>
          guard (stalls (rw s) = false);;
          Some (with_session c
                  (with_handler AtDeferred (with_rw (rw_Write frame false (rw s)) s)) σ)
      | AtFlush => Some (with_session c (with_handler AtDeferred s) σ)
      | _ => None
      end
  | Unwind c =>
      s ← sessions σ !! c;
      guard (handler s = AtDeferred ∧ core σ = AtSelect);;
      Some (with_session c (with_handler Exited s)
              (with_clients (delete c (clients σ)) σ))
  end.

Fixpoint run (σ : System) (tr : list label) : option System :=
  match tr with
  | [] => Some σ
  | l :: tr' => σ' ← exec σ l; run σ' tr'
  end.

(** [NewServer] (main.go:86-97), before any request. *)
Definition NewServer : System :=
  {| core := AtSelect; clients := Core.no_clients; Notifier := []; sessions := ∅ |}.

(** The events handed to the handler of [c] along a run, in order. *)
Definition delivered (c : chan) (tr : list label) : list event :=
  omap (λ l, match l with
             | Deliver c' ev => if decide (c' = c) then Some ev else None
             | _ => None
             end) tr.

(** The frame the handler has passed to [rw.Write] in a call that has not
    returned. *)
Definition in_flight (s : Session) : list (list byte) :=
  match handler s with
  | AtWrite frame => [frame]
  | _ => []
  end.

(** The handler is past line 65: its channel has been handed to the
    [listen] goroutine. *)
Definition joined (s : Session) : Prop :=
  match handler s with
  | AtEntry | Returned | AtRegister => False
  | _ => True
  end.

(** What holds of every session of a run. A handler whose transport cannot
    flush is at line 49 with the transport untouched, or has returned at
    line 52 with the reply of [http.Error] and nothing else on the
    transport; it has no watcher. A watcher exists only once the handler is
    past line 65. *)
Definition refused (s : Session) : Prop :=
  watcher s = Unborn ∧ failures (rw s) = 0 ∧ flushes (rw s) = 0 ∧
  ((handler s = AtEntry ∧
    header (rw s) = ∅ ∧ status (rw s) = None ∧ written (rw s) = []) ∨
   (handler s = Returned ∧
    header (rw s) = header (http_Error "Streaming unsupported!" 500
                              (fresh_transport false false)) ∧
    status (rw s) = Some 500 ∧
    written (rw s) = [String.list_byte_of_string "Streaming unsupported!" ++ [x0a]])).

Definition session_ok (s : Session) : Prop :=
  (flushable (rw s) = false → refused s) ∧
  (handler s = Returned → flushable (rw s) = false) ∧
  (watcher s ≠ Unborn → joined s).

(** What holds of every state of a run: every session is as above, and a
    channel in the registry is the channel of a handler past line 65. *)
Definition system_ok (σ : System) : Prop :=
  (∀ c s, sessions σ !! c = Some s → session_ok s) ∧
  (∀ c, c ∈ dom (clients σ) → ∃ s, sessions σ !! c = Some s ∧ joined s).

(** The [listen] goroutine is blocked in the send of line 40 to [c], whose
    handler is inside a call of [rw.Write] that never returns. *)
Definition stuck_on (c : chan) (σ : System) : Prop :=
  (∃ ev rest, core σ = AtSend ev (c :: rest)) ∧
  (∃ s frame, sessions σ !! c = Some s ∧
              handler s = AtWrite frame ∧ stalls (rw s) = true).


(** The steps a handler takes from line 57 on, up to the receive of line
    80. *)
Definition streams (c : chan) (l : label) : Prop :=
  l = Open c ∨ l = Join c ∨ ∃ ev, l = Deliver c ev.

(** What [listen] receives in a step of the program, if anything. *)
Definition request_of (l : label) : option Core.request :=
  match l with
  | Join c => Some (Core.Attach c)
  | Close c | Unwind c => Some (Core.Detach c)
  | Take ev _ => Some (Core.Publish ev)
  | _ => None
  end.

(** The handler is inside the loop of lines 79-83. *)
Definition in_loop (s : Session) : Prop :=
  match handler s with
  | AtReceive | AtWrite _ | AtFlush => True
  | _ => False
  end.

End Server.

(** ** The words of the specification *)
Module Spec.
Import Core.

(** "An Attach for it has been processed and no matching Detach has been
    processed since." *)
Definition attached (s : chan) (hist : list request) : Prop :=
  ∃ h1 h2, hist = h1 ++ Attach s :: h2 ∧ Detach s ∉ h2.


(** The registry invariant, for the requests [hist] processed so far:
    membership is what [attached] says, the map is used as a set (every
    value is [true]), and no key is listed twice. *)
Definition registry_inv (hist : list request) (clients : gmap chan bool) : Prop :=
  (∀ s, s ∈ dom clients ↔ attached s hist) ∧
  (∀ s v, clients !! s = Some v → v = true) ∧
  NoDup (map_to_list clients).*1.

(** The wire frame of an event: [data: ], the payload, two newlines. *)
Definition frame (payload : list byte) : list byte :=
  String.list_byte_of_string "data: " ++ payload ++ [x0a; x0a].

End Spec.

(** ** Notions for further properties of the program *)
Module Program.
Import Server.

(** The events the event source has put on [Notifier] along a run
    (main.go:108), and the events [listen] has taken from it
    (main.go:36), in order. *)
Definition emitted (tr : list label) : list event :=
  omap (λ l, match l with Emit ev => Some ev | _ => None end) tr.

Definition taken (tr : list label) : list event :=
  omap (λ l, match l with Take ev _ => Some ev | _ => None end) tr.


(** The session is registered and no Detach of its channel has been sent:
    its handler is past line 65 and has not left, and its watcher has not
    sent on [closingClients]. *)
Definition live (s : Session) : Prop :=
  joined s ∧ watcher s = Waiting ∧ handler s ≠ Exited.

(** How the calls of [Flush] follow the calls of [rw.Write] that ended,
    at each place of the handler. *)
Definition flushed_up (s : Session) : Prop :=
  match handler s with
  | Returned => True
  | AtFlush => S (flushes (rw s)) = length (written (rw s))
  | AtDeferred | Exited =>
      flushes (rw s) ≤ length (written (rw s)) ≤ S (flushes (rw s))
  | _ => flushes (rw s) = length (written (rw s))
  end.

(** Inside the [range] of line 39 the channels still to be served are
    distinct and registered. *)
Definition range_ok (σ : System) : Prop :=
  match core σ with
  | AtSelect => True
  | AtSend _ todo => NoDup todo ∧ ∀ c, c ∈ todo → c ∈ dom (clients σ)
  end.

(** What a session has been handed against what [listen] has taken: a
    session still to be served in the current [range] has been handed
    events from before the one being sent only. *)
Definition in_order (c : chan) (σ : System) (tr : list label) : Prop :=
  match core σ with
  | AtSelect => delivered c tr `sublist_of` taken tr
  | AtSend ev todo =>
      ∃ before, taken tr = before ++ [ev] ∧
                if decide (c ∈ todo) then delivered c tr `sublist_of` before
                else delivered c tr `sublist_of` taken tr
  end.

(** [listen] is blocked in the send of line 40 to [c], whose handler is
    unwinding and blocked in the deferred send of line 68. *)
Definition deadlocked (c : chan) (σ : System) : Prop :=
  (∃ ev rest, core σ = AtSend ev (c :: rest)) ∧
  (∃ s, sessions σ !! c = Some s ∧ handler s = AtDeferred).

End Program.

(** A decidable fact about concrete data, settled by evaluation. *)
Ltac by_compute := apply (bool_decide_unpack _); vm_compute; exact I.

(** * Facts about the registry and fan-out loop *)
Module CoreFacts.
Import Core Spec.

Lemma listen_step_update clients r out clients' :
  listen_step clients r out clients' → clients' = update clients r.
Proof. by destruct 1. Qed.

Lemma registry_snoc clients rs r :
  registry clients (rs ++ [r]) = update (registry clients rs) r.
Proof. unfold registry. by rewrite foldl_app. Qed.

Lemma registry_app clients rs1 rs2 :
  registry clients (rs1 ++ rs2) = registry (registry clients rs1) rs2.
Proof. unfold registry. by rewrite foldl_app. Qed.

Lemma listen_registry clients rs outs clients' :
  listen clients rs outs clients' →
  clients' = registry clients rs ∧ length outs = length rs.
Proof.
  induction 1 as [|clients r rs out outs c1 c2 Hstep _ [-> IH]]; [done|].
  apply listen_step_update in Hstep as ->. simpl. by rewrite IH.
Qed.

Lemma range_order_elements clients : range_order clients (elements (dom clients)).
Proof.
  split; [apply NoDup_elements|].
  apply set_eq. intros c. by rewrite elem_of_list_to_set, elem_of_elements.
Qed.

Lemma range_order_elem_of clients order c :
  range_order clients order → c ∈ order ↔ c ∈ dom clients.
Proof. intros [_ <-]. by rewrite elem_of_list_to_set. Qed.

Lemma listen_exec_step_sound clients r :
  listen_step clients r (listen_exec_step clients r) (update clients r).
Proof.
  destruct r; simpl; try constructor. apply range_order_elements.
Qed.

Lemma listen_exec_sound clients rs :
  listen clients rs (listen_exec clients rs) (registry clients rs).
Proof.
  revert clients. induction rs as [|r rs IH]; intros clients; simpl.
  - constructor.
  - econstructor; [apply listen_exec_step_sound | apply IH].
Qed.

(** The loop cut at the [i]-th request. *)
Lemma listen_app_inv clients rs1 rs2 outs clients' :
  listen clients (rs1 ++ rs2) outs clients' →
  ∃ outs1 outs2,
    outs = outs1 ++ outs2 ∧ length outs1 = length rs1 ∧
    listen clients rs1 outs1 (registry clients rs1) ∧
    listen (registry clients rs1) rs2 outs2 clients'.
Proof.
  revert clients outs. induction rs1 as [|r rs1 IH]; intros clients outs H; simpl in *.
  - exists [], outs. repeat split; [constructor | done].
  - inversion H as [|? ? out outs' c1 ? Hstep Hrest]; subst.
    destruct (IH _ _ Hrest) as (o1 & o2 & -> & Hlen & H1 & H2).
    pose proof (listen_step_update _ _ _ _ Hstep) as ->.
    exists (out :: o1), o2. repeat split; simpl; [by rewrite Hlen | | done].
    econstructor; eauto.
Qed.

(** What a sink is handed by the [range] loop. *)
Lemma received_sends s ev order :
  received s ((λ c, Sent c ev) <$> order) = (λ _, ev) <$> filter (λ c, c = s) order.
Proof.
  induction order as [|c order IH]; [done|].
  rewrite filter_cons. unfold received in *. cbn [fmap list_fmap omap list_omap].
  destruct (decide (c = s)); cbn [fmap list_fmap]; by rewrite IH.
Qed.

Lemma filter_eq_NoDup (s : chan) (order : list chan) :
  NoDup order →
  filter (λ c, c = s) order = if decide (s ∈ order) then [s] else [].
Proof.
  induction 1 as [|c order Hc Hnd IH]; [done|].
  rewrite filter_cons, IH.
  repeat case_decide; subst; try done; set_solver.
Qed.

Lemma received_range clients order s ev :
  range_order clients order →
  received s ((λ c, Sent c ev) <$> order) = if decide (s ∈ dom clients) then [ev] else [].
Proof.
  intros Hro. rewrite received_sends, filter_eq_NoDup by apply Hro.
  pose proof (range_order_elem_of clients order s Hro) as Hiff.
  destruct (decide (s ∈ order)), (decide (s ∈ dom clients)); naive_solver.
Qed.

Lemma listen_step_received clients r out clients' s :
  listen_step clients r out clients' →
  received s out =
    match r with
    | Publish ev => if decide (s ∈ dom clients) then [ev] else []
    | _ => []
    end.
Proof. destruct 1; [done | done | by apply received_range]. Qed.

Lemma received_app s out1 out2 :
  received s (out1 ++ out2) = received s out1 ++ received s out2.
Proof. unfold received. apply omap_app. Qed.

Lemma listen_at clients rs outs clients' i r :
  listen clients rs outs clients' → rs !! i = Some r →
  ∃ out, outs !! i = Some out ∧
         listen_step (registry clients (take i rs)) r out
           (update (registry clients (take i rs)) r).
Proof.
  intros Hrun Hi.
  rewrite <- (take_drop_middle rs i r Hi) in Hrun.
  apply listen_app_inv in Hrun as (o1 & o2 & -> & Hlen & _ & Hrest).
  inversion Hrest as [|? ? out outs' c1 ? Hstep _]; subst.
  exists out. split.
  - apply lookup_lt_Some in Hi. rewrite length_take_le in Hlen by lia.
    rewrite lookup_app_r by lia. by rewrite Hlen, Nat.sub_diag.
  - by rewrite <- (listen_step_update _ _ _ _ Hstep).
Qed.

(** A history that ends in [r], against the last request of a kind. *)
Lemma last_request_snoc (a b r : request) (hist : list request) :
  a ≠ b →
  (∃ h1 h2, hist ++ [r] = h1 ++ a :: h2 ∧ b ∉ h2) ↔
  r = a ∨ ((∃ h1 h2, hist = h1 ++ a :: h2 ∧ b ∉ h2) ∧ r ≠ b).
Proof.
  intros Hab. split.
  - intros (h1 & h2 & Heq & Hb).
    destruct h2 as [|x h2 _] using rev_ind.
    + left. change (h1 ++ [a]) with (h1 ++ [a]) in Heq.
      by apply app_inj_tail in Heq as [_ ->].
    + right. rewrite app_comm_cons, app_assoc in Heq.
      apply app_inj_tail in Heq as [-> ->].
      rewrite elem_of_app, list_elem_of_singleton in Hb.
      split; [exists h1, h2; split; [done | tauto] | intros ->; tauto].
  - intros [->|[(h1 & h2 & -> & Hb) Hr]].
    + exists hist, []. split; [done | apply not_elem_of_nil].
    + exists h1, (h2 ++ [r]). split; [by rewrite <- app_assoc|].
      rewrite elem_of_app, list_elem_of_singleton. naive_solver.
Qed.

Lemma attached_snoc s hist r :
  attached s (hist ++ [r]) ↔ r = Attach s ∨ (attached s hist ∧ r ≠ Detach s).
Proof. by apply last_request_snoc. Qed.


Lemma attached_nil s : ¬ attached s [].
Proof. intros (h1 & h2 & Heq & _). by destruct h1. Qed.


Lemma registry_inv_init : registry_inv [] no_clients.
Proof.
  unfold no_clients. split; [|split].
  - intros s. rewrite dom_empty_L. split; [set_solver|].
    intros H. by apply attached_nil in H.
  - intros s v. by rewrite lookup_empty.
  - apply NoDup_fst_map_to_list.
Qed.

Lemma registry_inv_update hist clients r :
  registry_inv hist clients → registry_inv (hist ++ [r]) (update clients r).
Proof.
  intros (Hmem & Htrue & _). split; [|split].
  - intros s. rewrite attached_snoc, <- Hmem.
    destruct r as [s0|s0|ev]; simpl.
    + rewrite dom_insert_L, elem_of_union, elem_of_singleton. naive_solver.
    + rewrite dom_delete_L, elem_of_difference, elem_of_singleton. naive_solver.
    + naive_solver.
  - intros s v. destruct r as [s0|s0|ev]; simpl.
    + rewrite lookup_insert. case_decide; [congruence | apply Htrue].
    + rewrite lookup_delete. case_decide; [done | apply Htrue].
    + apply Htrue.
  - apply NoDup_fst_map_to_list.
Qed.

Lemma registry_inv_step hist clients r out clients' :
  registry_inv hist clients → listen_step clients r out clients' →
  registry_inv (hist ++ [r]) clients'.
Proof.
  intros Hinv Hstep. apply listen_step_update in Hstep as ->.
  by apply registry_inv_update.
Qed.

Lemma registry_inv_registry hist clients rs :
  registry_inv hist clients → registry_inv (hist ++ rs) (registry clients rs).
Proof.
  revert hist clients. induction rs as [|r rs IH]; intros hist clients Hinv.
  - by rewrite app_nil_r.
  - replace (hist ++ r :: rs) with ((hist ++ [r]) ++ rs) by by rewrite <- app_assoc.
    apply IH. by apply registry_inv_update.
Qed.




(** What a sink has been handed once the loop has processed the request at
    position [i]. *)
Lemma received_through clients rs outs clients' s i ev :
  listen clients rs outs clients' →
  rs !! i = Some (Publish ev) →
  s ∈ dom (registry clients (take i rs)) →
  ∃ out, outs !! i = Some out ∧ received s out = [ev].
Proof.
  intros Hrun Hi Hmem.
  destruct (listen_at _ _ _ _ _ _ Hrun Hi) as (out & Hout & Hstep).
  exists out. split; [done|].
  rewrite (listen_step_received _ _ _ _ s Hstep). by rewrite decide_True.
Qed.

Lemma concat_through {A} (ls : list (list A)) i l :
  ls !! i = Some l → concat ls = concat (take i ls) ++ l ++ concat (drop (S i) ls).
Proof.
  intros Hi. rewrite <- (take_drop_middle ls i l Hi) at 1.
  by rewrite concat_app, concat_cons.
Qed.

(** C3. If the loop processes [Publish A] at position [i] and [Publish B]
    at a later position [j], and the sink is in the registry at both
    moments, then in the sequence of events handed to the sink over the
    whole run, the delivery made at [i] (of [A]) comes at an earlier place
    than the delivery made at [j] (of [B]). *)
Theorem per_sink_order (rs : list request) (outs : list (list effect))
    (clients' : gmap chan bool) (s : chan) (i j : nat) (A B : event) :
  listen no_clients rs outs clients' →
  i < j →
  rs !! i = Some (Publish A) →
  rs !! j = Some (Publish B) →
  s ∈ dom (registry no_clients (take i rs)) →
  s ∈ dom (registry no_clients (take j rs)) →
  ∃ p q, p < q ∧
    p = length (received s (concat (take i outs))) ∧
    q = length (received s (concat (take j outs))) ∧
    received s (concat outs) !! p = Some A ∧
    received s (concat outs) !! q = Some B.
Proof.
  intros Hrun Hij Hi Hj Hmi Hmj.
  destruct (received_through _ _ _ _ s i A Hrun Hi Hmi) as (oi & Hoi & Hri).
  destruct (received_through _ _ _ _ s j B Hrun Hj Hmj) as (oj & Hoj & Hrj).
  eexists _, _. split; [|split; [reflexivity|split; [reflexivity|split]]].
  - assert (Hti : take j outs !! i = Some oi) by (by rewrite lookup_take_lt).
    rewrite (concat_through (take j outs) i oi Hti).
    rewrite take_take, Nat.min_l by lia.
    rewrite !received_app, Hri, !length_app. simpl. lia.
  - rewrite (concat_through outs i oi Hoi), !received_app, Hri.
    by rewrite lookup_app_r, Nat.sub_diag by lia.
  - rewrite (concat_through outs j oj Hoj), !received_app, Hrj.
    by rewrite lookup_app_r, Nat.sub_diag by lia.
Qed.

Lemma per_sink_order_witness :
  let A := String.list_byte_of_string "hello" in
  let B := String.list_byte_of_string "world" in
  let rs := [Attach 1; Publish A; Attach 2; Publish B] in
  let outs := listen_exec no_clients rs in
  listen no_clients rs outs (registry no_clients rs) ∧
  ∃ p q, p < q ∧
    p = length (received 1 (concat (take 1 outs))) ∧
    q = length (received 1 (concat (take 3 outs))) ∧
    received 1 (concat outs) !! p = Some A ∧
    received 1 (concat outs) !! q = Some B.
Proof.
  intros A B rs outs. split; [apply listen_exec_sound|].
  apply (per_sink_order rs outs (registry no_clients rs) 1 1 3 A B).
  - apply listen_exec_sound.
  - lia.
  - reflexivity.
  - reflexivity.
  - by_compute.
  - by_compute.
Defined.

(** C4. After every iteration of the loop started on the empty registry of
    [NewServer], a sink is in the registry exactly when an Attach of it has
    been processed and no Detach of it since, every value stored is [true],
    and no sink is listed twice among the keys. *)
Theorem registry_invariant (rs : list request) (outs : list (list effect))
    (clients' : gmap chan bool) :
  listen no_clients rs outs clients' → registry_inv rs clients'.
Proof.
  intros Hrun. apply listen_registry in Hrun as [-> _].
  apply (registry_inv_registry [] no_clients rs registry_inv_init).
Qed.

Lemma registry_invariant_witness :
  let rs := [Attach 1; Attach 2; Detach 1; Attach 2] in
  listen no_clients rs (listen_exec no_clients rs) (registry no_clients rs) ∧
  registry_inv rs (registry no_clients rs).
Proof.
  intros rs. split; [apply listen_exec_sound|].
  apply (registry_invariant rs (listen_exec no_clients rs)).
  apply listen_exec_sound.
Defined.

(** C5. In every registry the iteration that processes [Detach s] goes
    through (it has a result, and no other), sends nothing to any sink, and
    leaves the registry as it was when [s] is not in it; processing the
    same Detach a second time changes nothing more. *)
Theorem detach_idempotent (clients : gmap chan bool) (s : chan) :
  (∃ out clients', listen_step clients (Detach s) out clients') ∧
  (∀ out clients', listen_step clients (Detach s) out clients' →
     clients' = delete s clients ∧
     (s ∉ dom clients → clients' = clients) ∧
     (∀ c, received c out = []) ∧
     (∀ out2 clients2, listen_step clients' (Detach s) out2 clients2 →
        clients2 = clients')).
Proof.
  split; [eexists _, _; constructor|].
  intros out clients' Hstep. inversion Hstep; subst.
  split; [done|]. split; [|split; [done|]].
  - intros Hs. apply delete_id. by apply not_elem_of_dom.
  - intros out2 clients2 Hstep2. inversion Hstep2; subst. apply delete_delete_eq.
Qed.

Lemma detach_idempotent_witness :
  let clients : gmap chan bool := registry no_clients [Attach 1; Attach 2; Detach 1] in
  listen_step clients (Detach 1) (listen_exec_step clients (Detach 1))
    (update clients (Detach 1)) ∧
  (1%positive ∉ dom clients) ∧
  update clients (Detach 1) = clients.
Proof.
  intros clients.
  assert (Hstep : listen_step clients (Detach 1)
                    (listen_exec_step clients (Detach 1)) (update clients (Detach 1)))
    by apply listen_exec_step_sound.
  assert (Hs : 1%positive ∉ dom clients) by by_compute.
  split; [exact Hstep|]. split; [exact Hs|].
  destruct (detach_idempotent clients 1) as [_ Hall].
  destruct (Hall _ _ Hstep) as (_ & Hsame & _). exact (Hsame Hs).
Defined.

(** C10. When [s] is already in the registry, the iteration that processes
    [Attach s] leaves the set of members, the number of entries and the
    absence of duplicate keys as they were; when the value stored for [s]
    is [true], as it is for every entry the loop makes, the map itself is
    unchanged. *)
Theorem attach_idempotent (clients : gmap chan bool) (s : chan)
    (out : list effect) (clients' : gmap chan bool) :
  s ∈ dom clients →
  listen_step clients (Attach s) out clients' →
  dom clients' = dom clients ∧
  size clients' = size clients ∧
  NoDup (map_to_list clients').*1 ∧
  (∀ order, range_order clients' order ↔ range_order clients order) ∧
  (clients !! s = Some true → clients' = clients).
Proof.
  intros Hs Hstep. inversion Hstep; subst.
  assert (Hdom : dom (<[s:=true]> clients) = dom clients).
  { rewrite dom_insert_L. set_solver. }
  split; [done|]. split.
  { by rewrite <- !size_dom, Hdom. }
  split; [apply NoDup_fst_map_to_list|]. split.
  - intros order. unfold range_order. by rewrite Hdom.
  - intros Hv. by apply insert_id.
Qed.

Lemma attach_idempotent_witness :
  let clients : gmap chan bool := registry no_clients [Attach 1; Attach 2] in
  2%positive ∈ dom clients ∧
  listen_step clients (Attach 2) (listen_exec_step clients (Attach 2))
    (update clients (Attach 2)) ∧
  dom (update clients (Attach 2)) = dom clients ∧
  size (update clients (Attach 2)) = size clients ∧
  NoDup (map_to_list (update clients (Attach 2))).*1 ∧
  (∀ order, range_order (update clients (Attach 2)) order ↔ range_order clients order) ∧
  (clients !! 2%positive = Some true → update clients (Attach 2) = clients).
Proof.
  intros clients.
  assert (Hs : 2%positive ∈ dom clients) by by_compute.
  split; [exact Hs|]. split; [apply listen_exec_step_sound|].
  apply (attach_idempotent clients 2 (listen_exec_step clients (Attach 2))
           (update clients (Attach 2)) Hs).
  apply listen_exec_step_sound.
Defined.

(** [listen] keeps no record of the channels it has removed: a channel
    sent on [newClients] again would be registered again. That no channel
    is, is a fact about the handlers (see [ServerFacts]). *)
Example listen_keeps_no_record :
  1%positive ∈ dom (registry no_clients [Attach 1; Detach 1; Attach 1]).
Proof. by_compute. Qed.

End CoreFacts.

(** * Facts about the whole program *)
Module ServerFacts.
Import Server.

Lemma run_app σ tr1 tr2 :
  run σ (tr1 ++ tr2) = σ1 ← run σ tr1; run σ1 tr2.
Proof.
  revert σ. induction tr1 as [|l tr1 IH]; intros σ; simpl; [done|].
  destruct (exec σ l); simpl; [apply IH | done].
Qed.

Lemma run_snoc σ tr l σ' :
  run σ (tr ++ [l]) = Some σ' ↔ ∃ σ1, run σ tr = Some σ1 ∧ exec σ1 l = Some σ'.
Proof.
  rewrite run_app. split.
  - destruct (run σ tr) as [σ1|]; simpl; [|done].
    destruct (exec σ1 l) eqn:E; simpl; [|done]. intros [= <-]. eauto.
  - intros (σ1 & -> & H). simpl. by rewrite H.
Qed.

Lemma run_split σ tr1 tr2 σ' :
  run σ (tr1 ++ tr2) = Some σ' ↔ ∃ σ1, run σ tr1 = Some σ1 ∧ run σ1 tr2 = Some σ'.
Proof.
  rewrite run_app. split.
  - destruct (run σ tr1) as [σ1|]; simpl; [eauto | done].
  - by intros (σ1 & -> & H).
Qed.

(** A property kept by every step holds along every run. *)
Lemma run_invariant (P : System → Prop) σ tr σ' :
  (∀ σ1 l σ2, P σ1 → exec σ1 l = Some σ2 → P σ2) →
  P σ → run σ tr = Some σ' → P σ'.
Proof.
  intros Hstep. revert σ. induction tr as [|l tr IH]; intros σ HP; simpl.
  - by intros [= <-].
  - destruct (exec σ l) as [σ1|] eqn:E; simpl; [|done]. eauto.
Qed.

Lemma Sprintf_frame (ev : event) :
  Fmt.Sprintf Fmt.frame_format [ev] = Some (Spec.frame ev).
Proof.
  unfold Fmt.frame_format, Spec.frame. reflexivity.
Qed.

#[local] Opaque Fmt.Sprintf.

(** The cases of a step. *)
Ltac sys_simpl :=
  cbn [core clients Notifier sessions
       with_session with_clients with_core with_Notifier
       handler watcher cancelled rw
       with_handler with_watcher with_cancelled with_rw
       fresh_session fresh_transport http_Error stream_headers Header_Set
       rw_Write rw_Flush
       flushable stalls header status written failures flushes] in *.

Ltac lookup_cases :=
  repeat match goal with
    | H : context [<[_:=_]> _ !! _] |- _ =>
        rewrite lookup_insert in H; case_decide; simplify_eq
    | |- context [<[_:=_]> _ !! _] =>
        rewrite lookup_insert; case_decide; simplify_eq
    end.

Ltac exec_inv H :=
  unfold exec in H;
  repeat (simplify_option_eq || case_match);
  repeat match goal with
    | H : Fmt.Sprintf Fmt.frame_format [_] = Some _ |- _ =>
        rewrite Sprintf_frame in H; simplify_eq
    end;
  sys_simpl.

Lemma system_ok_init : system_ok NewServer.
Proof.
  split.
  - intros c s Hl. simpl in Hl. by rewrite lookup_empty in Hl.
  - intros c Hin. simpl in Hin. unfold Core.no_clients in Hin.
    by rewrite dom_empty_L in Hin.
Qed.

Lemma system_ok_step σ l σ' :
  system_ok σ → exec σ l = Some σ' → system_ok σ'.
Proof.
  intros [Hs Hc] H.
  destruct l; exec_inv H; (split; [intros c' s' Hl | intros c' Hin]); sys_simpl.
  all: lookup_cases.
  all: try (by eapply Hs).
  all: try (rewrite ?dom_insert_L, ?dom_delete_L in Hin).
  all: try (by apply Hc).
  all: try (by eexists; split; [done|]).
  all: try (apply Hc; set_solver).
  all: try (apply elem_of_difference in Hin as [_ Hin]; by rewrite elem_of_singleton in Hin).
  all: try (apply Hc in Hin as (s0 & Hl0 & Hj); simplify_eq;
            try (eexists; split; [done|])).
  all: try match goal with
       | H : sessions _ !! _ = Some ?s |- _ => pose proof (Hs _ _ H) as (Hr & Hret & Hw)
       end.
  all: unfold session_ok, refused, joined in *; sys_simpl.
  all: repeat match goal with
       | H : handler _ = _ |- _ => rewrite H in *; clear H
       end.
  all: try done.
  all: try (intuition congruence).
  (* the refusal: the handler was at line 49 with an untouched transport *)
  match goal with
  | Hf : flushable (rw _) = false |- _ =>
      destruct (Hr Hf) as (Hw0 & Hfail & Hfl & [(_ & Hh & Hst & Hwr) | (? & _)]);
        [|done]
  end.
  rewrite Hh, Hwr. intuition.
Qed.

Lemma system_ok_run tr σ : run NewServer tr = Some σ → system_ok σ.
Proof.
  apply (run_invariant system_ok); [apply system_ok_step | apply system_ok_init].
Qed.

Lemma delivered_snoc c tr l :
  delivered c (tr ++ [l]) =
  delivered c tr ++
    match l with
    | Deliver c' ev => if decide (c' = c) then [ev] else []
    | _ => []
    end.
Proof.
  unfold delivered. rewrite omap_app. f_equal.
  destruct l; try done. simpl. by case_decide.
Qed.

(** Along a run: what the transport of a session has been handed, with the
    frame of a write in progress, is the frames of the events delivered to
    the session; a session not yet connected has been delivered nothing. *)
Lemma frames_inv tr σ c :
  run NewServer tr = Some σ →
  match sessions σ !! c with
  | Some s => handler s ≠ Returned →
              written (rw s) ++ in_flight s = Spec.frame <$> delivered c tr
  | None => delivered c tr = []
  end.
Proof.
  revert σ. induction tr as [|l tr IH] using rev_ind; intros σ Hrun.
  { simpl in Hrun. simplify_eq. simpl. by rewrite lookup_empty. }
  apply run_snoc in Hrun as (σ1 & Hrun & H).
  specialize (IH σ1 Hrun). pose proof (system_ok_run _ _ Hrun) as [Hs _].
  rewrite delivered_snoc.
  destruct l; exec_inv H; lookup_cases; unfold in_flight in *; sys_simpl.
  all: rewrite ?app_nil_r.
  all: try done.
  all: intros _.
  all: try (by rewrite IH).
  all: repeat match goal with
       | H : handler _ = _ |- _ => rewrite H in IH
       end.
  all: rewrite ?app_nil_r in IH.
  all: rewrite ?fmap_app; try (rewrite <- IH by done).
  all: try done.
Qed.

(** A session stays, and its transport keeps its kind. *)
Lemma exec_session_kept σ l σ' c s :
  exec σ l = Some σ' → sessions σ !! c = Some s →
  ∃ s', sessions σ' !! c = Some s' ∧
        flushable (rw s') = flushable (rw s) ∧ stalls (rw s') = stalls (rw s).
Proof.
  intros H Hl. destruct l; exec_inv H; lookup_cases; by eexists.
Qed.

Lemma flushable_unless_refused s :
  session_ok s → handler s ≠ AtEntry → handler s ≠ Returned →
  flushable (rw s) = true.
Proof.
  intros (Hr & _ & _) H1 H2. destruct (flushable (rw s)); [done|].
  destruct (Hr eq_refl) as (_ & _ & _ & [[? _]|[? _]]); done.
Qed.

Lemma streams_flushable tr σ c l :
  run NewServer tr = Some σ → l ∈ tr → streams c l →
  ∃ s, sessions σ !! c = Some s ∧ flushable (rw s) = true.
Proof.
  revert σ. induction tr as [|l' tr IH] using rev_ind; intros σ Hrun Hin Hl.
  { by apply elem_of_nil in Hin. }
  apply run_snoc in Hrun as (σ1 & Hrun & H).
  apply elem_of_app in Hin as [Hin|Hin%list_elem_of_singleton].
  - destruct (IH σ1 Hrun Hin Hl) as (s & Hs & Hf).
    destruct (exec_session_kept _ _ _ c s H Hs) as (s' & Hs' & Hf' & _).
    exists s'. split; [done | congruence].
  - subst l'. pose proof (system_ok_run _ _ Hrun) as [Hok _].
    destruct Hl as [->|[->|[ev ->]]]; exec_inv H; lookup_cases;
      (eexists; split; [done|]); sys_simpl; try done.
    all: match goal with
         | H : sessions _ !! _ = Some ?s |- _ =>
             apply (flushable_unless_refused s (Hok _ _ H)); congruence
         end.
Qed.

(** C6. Along every run of the program, for every session whose
    transport can flush: the byte strings handed to [rw.Write], the one of
    a call in progress included, are, in order, the frames of the events
    delivered to the session, each the bytes [data: ] followed by the
    payload and two newlines. *)
Theorem frames_on_the_wire (tr : list label) (σ : System) (c : chan) (s : Session) :
  run NewServer tr = Some σ →
  sessions σ !! c = Some s →
  flushable (rw s) = true →
  written (rw s) ++ in_flight s =
    (λ payload, String.list_byte_of_string "data: " ++ payload ++ [x0a; x0a])
      <$> delivered c tr.
Proof.
  intros Hrun Hs Hf. pose proof (frames_inv tr σ c Hrun) as Hinv.
  rewrite Hs in Hinv. apply Hinv.
  pose proof (system_ok_run _ _ Hrun) as [Hok _].
  destruct (Hok c s Hs) as (_ & Hret & _). intros Hr. apply Hret in Hr. congruence.
Qed.

Lemma frames_on_the_wire_witness :
  let a := String.list_byte_of_string "hello" in
  let b := String.list_byte_of_string "world" in
  let tr := [Connect 1 true false; Open 1; Join 1;
             Emit a; Take a [1%positive]; Deliver 1 a; Written 1 true; Flushed 1;
             Emit b; Take b [1%positive]; Deliver 1 b] in
  let σ := default NewServer (run NewServer tr) in
  let s := default (fresh_session true false) (sessions σ !! 1%positive) in
  run NewServer tr = Some σ ∧
  sessions σ !! 1%positive = Some s ∧
  flushable (rw s) = true ∧
  written (rw s) ++ in_flight s =
    [String.list_byte_of_string "data: hello" ++ [x0a; x0a];
     String.list_byte_of_string "data: world" ++ [x0a; x0a]].
Proof.
  intros a b tr σ s.
  assert (Hrun : run NewServer tr = Some σ) by (vm_compute; reflexivity).
  assert (Hs : sessions σ !! 1%positive = Some s) by (vm_compute; reflexivity).
  assert (Hf : flushable (rw s) = true) by (vm_compute; reflexivity).
  split; [exact Hrun|]. split; [exact Hs|]. split; [exact Hf|].
  rewrite (frames_on_the_wire tr σ 1 s Hrun Hs Hf). vm_compute. reflexivity.
Defined.

(** C7. Along every run of the program, a session whose transport cannot
    flush takes none of the steps of the stream (it sets no stream header,
    makes and registers no channel, is delivered nothing), its channel is
    not in the registry, its transport carries no stream header, no frame
    and no flush; the one step its handler has is the refusal of lines
    50-52, which is enabled at once, leaves the registry as it is, and
    ends the handler with status 500 and the message of [http.Error]. *)
Theorem no_flusher_no_registration (tr : list label) (σ : System) (c : chan)
    (s : Session) :
  run NewServer tr = Some σ →
  sessions σ !! c = Some s →
  flushable (rw s) = false →
  (∀ l, l ∈ tr → ¬ streams c l) ∧
  (c ∉ dom (clients σ)) ∧
  header (rw s) !! "Content-Type" ≠ Some "text/event-stream" ∧
  header (rw s) !! "Cache-Control" = None ∧
  header (rw s) !! "Connection" = None ∧
  header (rw s) !! "Access-Control-Allow-Origin" = None ∧
  (∀ ev, Spec.frame ev ∉ written (rw s)) ∧
  flushes (rw s) = 0 ∧
  (handler s = AtEntry → is_Some (exec σ (Reject c))) ∧
  (∀ l σ', exec σ l = Some σ' →
     sessions σ' !! c = Some s ∨
     l = Cancel c ∨
     (l = Reject c ∧ handler s = AtEntry ∧
      clients σ' = clients σ ∧ size (clients σ') = size (clients σ) ∧
      ∃ s', sessions σ' !! c = Some s' ∧ handler s' = Returned ∧
            status (rw s') = Some 500 ∧
            written (rw s') =
              [String.list_byte_of_string "Streaming unsupported!" ++ [x0a]])).
Proof.
  intros Hrun Hs Hf. pose proof (system_ok_run _ _ Hrun) as [Hok Hreg].
  destruct (Hok c s Hs) as (Hr & _ & _).
  destruct (Hr Hf) as (Hw & Hfail & Hfl & Hcase).
  split; [|split].
  { intros l Hl Hst.
    destruct (streams_flushable _ _ _ _ Hrun Hl Hst) as (s' & Hs' & Hf').
    congruence. }
  { intros Hin. destruct (Hreg c Hin) as (s' & Hs' & Hj).
    assert (s' = s) as -> by congruence. unfold joined in Hj.
    destruct Hcase as [[H _]|[H _]]; by rewrite H in Hj. }
  assert (Hhdr : header (rw s) = ∅ ∨
                 header (rw s) =
                   <["X-Content-Type-Options":="nosniff"]>
                     (<["Content-Type":="text/plain; charset=utf-8"]>
                        (delete "Content-Length" ∅))).
  { destruct Hcase as [(_ & H & _)|(_ & H & _)]; [by left | by right]. }
  assert (Hwr : written (rw s) = [] ∨
                written (rw s) =
                  [String.list_byte_of_string "Streaming unsupported!" ++ [x0a]]).
  { destruct Hcase as [(_ & _ & _ & H)|(_ & _ & _ & H)]; [by left | by right]. }
  repeat split.
  - destruct Hhdr as [->| ->]; by vm_compute.
  - destruct Hhdr as [->| ->]; by vm_compute.
  - destruct Hhdr as [->| ->]; by vm_compute.
  - destruct Hhdr as [->| ->]; by vm_compute.
  - intros ev. destruct Hwr as [->| ->]; [apply not_elem_of_nil|].
    rewrite list_elem_of_singleton. unfold Spec.frame. simpl. discriminate.
  - done.
  - intros Hh. unfold exec. rewrite Hs. simpl.
    rewrite option_guard_True by done. by eexists.
  - intros l σ' H.
    assert (Hh : handler s = AtEntry ∨ handler s = Returned)
      by (destruct Hcase as [[? _]|[? _]]; [by left | by right]).
    destruct l; exec_inv H; lookup_cases; try (by left); try (by right; left).
    all: try (destruct Hh; congruence).
    right; right. repeat split; try done.
    eexists. split; [done|]. sys_simpl.
    destruct Hcase as [(_ & _ & _ & ->)|(? & _)]; [done | congruence].
Qed.

Lemma no_flusher_no_registration_witness :
  let tr := [Connect 1 true false; Open 1; Join 1; Connect 2 false false] in
  let σ := default NewServer (run NewServer tr) in
  let s := default (fresh_session true false) (sessions σ !! 2%positive) in
  run NewServer tr = Some σ ∧
  sessions σ !! 2%positive = Some s ∧
  flushable (rw s) = false ∧
  (2%positive ∉ dom (clients σ)) ∧
  is_Some (exec σ (Reject 2)).
Proof.
  intros tr σ s.
  assert (Hrun : run NewServer tr = Some σ) by (vm_compute; reflexivity).
  assert (Hs : sessions σ !! 2%positive = Some s) by (vm_compute; reflexivity).
  assert (Hf : flushable (rw s) = false) by (vm_compute; reflexivity).
  split; [exact Hrun|]. split; [exact Hs|]. split; [exact Hf|].
  destruct (no_flusher_no_registration tr σ 2 s Hrun Hs Hf)
    as (_ & Hreg & _ & _ & _ & _ & _ & _ & Hrej & _).
  split; [exact Hreg|]. apply Hrej. vm_compute. reflexivity.
Defined.

(** Once a handler is past line 65 it stays so, its channel is not sent
    on [newClients] again, and nothing else puts the channel into the
    registry. *)
Lemma joined_kept σ l σ' c :
  exec σ l = Some σ' →
  (∃ s, sessions σ !! c = Some s ∧ joined s) →
  (∃ s', sessions σ' !! c = Some s' ∧ joined s') ∧
  l ≠ Join c ∧
  (c ∉ dom (clients σ) → c ∉ dom (clients σ')).
Proof.
  intros H (s & Hs & Hj).
  destruct l; exec_inv H; lookup_cases.
  all: unfold joined in *; sys_simpl.
  all: repeat match goal with
       | H : handler _ = _ |- _ => rewrite H in Hj
       end.
  all: try done.
  all: rewrite ?dom_insert_L, ?dom_delete_L.
  all: (split; [by eexists|]); (split; [congruence|]).
  all: set_solver.
Qed.

Lemma joined_kept_run σ tr σ' c :
  run σ tr = Some σ' →
  (∃ s, sessions σ !! c = Some s ∧ joined s) →
  (∃ s', sessions σ' !! c = Some s' ∧ joined s') ∧
  (Join c ∉ tr) ∧
  (c ∉ dom (clients σ) → c ∉ dom (clients σ')).
Proof.
  revert σ. induction tr as [|l tr IH]; intros σ Hrun Hj; simpl in Hrun.
  - simplify_eq. split; [done|]. split; [apply not_elem_of_nil | done].
  - destruct (exec σ l) as [σ1|] eqn:E; simpl in Hrun; [|done].
    destruct (joined_kept _ _ _ c E Hj) as (Hj1 & Hl & Hd1).
    destruct (IH σ1 Hrun Hj1) as (Hj' & Htr & Hd').
    split; [done|]. split; [|tauto].
    rewrite elem_of_cons. intros [?|?]; [congruence | done].
Qed.

(** The handler is past line 65 after each of the three steps that
    concern the registry. *)
Lemma joined_after σ l σ' c :
  system_ok σ → exec σ l = Some σ' →
  l = Join c ∨ l = Close c ∨ l = Unwind c →
  ∃ s', sessions σ' !! c = Some s' ∧ joined s'.
Proof.
  intros [Hok _] H Hl.
  destruct Hl as [->|[->| ->]]; exec_inv H; lookup_cases;
    (eexists; split; [done|]); unfold joined; sys_simpl; try done.
  match goal with
  | H : sessions _ !! _ = Some ?s |- _ => destruct (Hok _ _ H) as (_ & _ & Hw)
  end.
  apply Hw. congruence.
Qed.

(** C9. Along every run of the program: after the step in which [listen]
    takes the channel of a session from [newClients] or from
    [closingClients], that channel is never handed to [newClients] again;
    and once [listen] has processed a Detach of the channel, sent by the
    watcher or by the deferred call, the channel is not in the registry at
    any later moment. *)
Theorem sink_never_reused (tr1 tr2 : list label) (l : label) (σ : System) (c : chan) :
  run NewServer (tr1 ++ l :: tr2) = Some σ →
  l = Join c ∨ l = Close c ∨ l = Unwind c →
  (Join c ∉ tr2) ∧ (l ≠ Join c → c ∉ dom (clients σ)).
Proof.
  intros Hrun Hl.
  apply run_split in Hrun as (σ1 & Hrun1 & Hrun2). simpl in Hrun2.
  destruct (exec σ1 l) as [σ2|] eqn:E; simpl in Hrun2; [|done].
  pose proof (system_ok_run _ _ Hrun1) as Hok.
  pose proof (joined_after _ _ _ c Hok E Hl) as Hj.
  destruct (joined_kept_run _ _ _ c Hrun2 Hj) as (_ & Hno & Hdom).
  split; [done|]. intros Hne. apply Hdom.
  destruct Hl as [->|[->| ->]]; [done | |]; exec_inv E;
    rewrite dom_delete_L; set_solver.
Qed.

Lemma sink_never_reused_witness :
  let a := String.list_byte_of_string "hello" in
  let tr1 := [Connect 1 true false; Open 1; Join 1; Connect 2 true false;
              Open 2; Join 2; Cancel 1] in
  let tr2 := [Emit a; Take a [2%positive]; Deliver 2 a] in
  let σ := default NewServer (run NewServer (tr1 ++ Close 1 :: tr2)) in
  run NewServer (tr1 ++ Close 1 :: tr2) = Some σ ∧
  (Join 1 ∉ tr2) ∧ (Close 1 ≠ Join 1 → 1%positive ∉ dom (clients σ)).
Proof.
  intros a tr1 tr2 σ.
  assert (Hrun : run NewServer (tr1 ++ Close 1 :: tr2) = Some σ)
    by (vm_compute; reflexivity).
  split; [exact Hrun|].
  apply (sink_never_reused tr1 tr2 (Close 1) σ 1 Hrun). right. left. reflexivity.
Defined.

(** While [listen] is blocked on a handler whose write never returns,
    no step hands an event to any handler, the registry stays as it is, and
    [listen] stays blocked. *)
Lemma stuck_on_step c σ l σ' :
  stuck_on c σ → exec σ l = Some σ' →
  stuck_on c σ' ∧ (∀ c' ev, l ≠ Deliver c' ev) ∧ clients σ' = clients σ.
Proof.
  intros [(ev0 & rest & Hcore) (s & frame & Hs & Hh & Hst)] H.
  unfold stuck_on.
  destruct l; exec_inv H; lookup_cases; try congruence.
  all: split; [|done].
  all: (split; [by eexists _, _|]).
  all: eexists _, _; by sys_simpl.
Qed.

Lemma stuck_on_run c σ tr σ' :
  stuck_on c σ → run σ tr = Some σ' →
  stuck_on c σ' ∧ (∀ c' ev, Deliver c' ev ∉ tr) ∧ clients σ' = clients σ.
Proof.
  revert σ. induction tr as [|l tr IH]; intros σ Hst Hrun; simpl in Hrun.
  - simplify_eq. split; [done|]. split; [|done]. intros ? ?. apply not_elem_of_nil.
  - destruct (exec σ l) as [σ1|] eqn:E; simpl in Hrun; [|done].
    destruct (stuck_on_step _ _ _ _ Hst E) as (Hst1 & Hl & Hc1).
    destruct (IH σ1 Hst1 Hrun) as (Hst' & Htr & Hc').
    split; [done|]. split; [|congruence].
    intros c' ev. rewrite elem_of_cons. intros [?|?]; [by eapply Hl | by eapply Htr].
Qed.

Lemma deliveries_elsewhere ev tr σa σb c s0 :
  run σa ((λ c, Deliver c ev) <$> tr) = Some σb → c ∉ tr →
  sessions σa !! c = Some s0 → sessions σb !! c = Some s0.
Proof.
  revert σa. induction tr as [|c1 tr IH]; intros σa Hr Hn Hl.
  - simpl in Hr. by simplify_eq.
  - rewrite fmap_cons in Hr. cbn [run] in Hr.
    destruct (exec σa (Deliver c1 ev)) as [σm|] eqn:E; simpl in Hr; [|done].
    apply not_elem_of_cons in Hn as [Hne Hn].
    apply (IH σm Hr Hn).
    exec_inv E. by rewrite lookup_insert_ne.
Qed.

Lemma deliveries_Notifier ev tr σa σb :
  run σa ((λ c, Deliver c ev) <$> tr) = Some σb → Notifier σb = Notifier σa.
Proof.
  revert σa. induction tr as [|c tr IH]; intros σa Hr.
  - simpl in Hr. by simplify_eq.
  - rewrite fmap_cons in Hr. cbn [run] in Hr.
    destruct (exec σa (Deliver c ev)) as [σm|] eqn:E; simpl in Hr; [|done].
    rewrite (IH σm Hr). by exec_inv E.
Qed.

(** A fan-out whose handlers are all at their receive goes through, a
    step per channel. *)
Lemma fanout_run σ ev todo :
  NoDup todo →
  core σ = resume ev todo →
  (∀ c, c ∈ todo → ∃ s, sessions σ !! c = Some s ∧ handler s = AtReceive) →
  ∃ σ', run σ ((λ c, Deliver c ev) <$> todo) = Some σ' ∧
        core σ' = AtSelect ∧ clients σ' = clients σ ∧
        ∀ c, c ∈ todo →
             ∃ s, sessions σ' !! c = Some s ∧ handler s = AtWrite (Spec.frame ev).
Proof.
  intros Hnd. revert σ. induction Hnd as [|c todo Hc Hnd IH]; intros σ Hcore Hall.
  - exists σ. repeat split; [done|]. intros c Hin. by apply elem_of_nil in Hin.
  - destruct (Hall c) as (s & Hs & Hh); [by left|].
    simpl in Hcore. rewrite fmap_cons.
    set (σ1 := with_session c (with_handler (AtWrite (Spec.frame ev)) s)
                 (with_core (resume ev todo) σ)).
    assert (E : exec σ (Deliver c ev) = Some σ1).
    { unfold exec. rewrite Hcore, Hs. simpl.
      rewrite option_guard_True by done. by rewrite Sprintf_frame. }
    cbn [run]. rewrite E. simpl.
    destruct (IH σ1) as (σ' & Hrun & Hcore' & Hcl & Hw).
    { done. }
    { intros c' Hin. unfold σ1. sys_simpl.
      rewrite lookup_insert_ne by (intros ->; done). apply Hall. by right. }
    exists σ'. split; [done|]. split; [done|]. split; [done|].
    intros c' [->|Hin]%elem_of_cons; [|by apply Hw].
    exists (with_handler (AtWrite (Spec.frame ev)) s). split; [|done].
    apply (deliveries_elsewhere ev todo σ1 σ' c _ Hrun Hc). unfold σ1. sys_simpl.
    by rewrite lookup_insert_eq.
Qed.

(** C2, as the specification states it, fails. Client 1 has a transport
    whose write never returns, client 2 a transport that answers. Both
    register; a first event is handed to both, and client 2 writes it out
    and is back at its receive. From the moment [listen] takes the next
    event and reaches client 1 in its [range], client 2, though registered
    and waiting, is handed no event in any continuation of the run, and
    [listen] never comes back to its [select]. *)
Lemma stalled_client_starves_others :
  let a := String.list_byte_of_string "first" in
  let b := String.list_byte_of_string "second" in
  let tr := [Connect 1 true true; Connect 2 true false; Open 1; Open 2;
             Join 1; Join 2;
             Emit a; Take a [1%positive; 2%positive]; Deliver 1 a; Deliver 2 a;
             Written 2 true; Flushed 2;
             Emit b; Take b [1%positive; 2%positive]] in
  ∃ σ s1 s2,
    run NewServer tr = Some σ ∧
    sessions σ !! 1%positive = Some s1 ∧ stalls (rw s1) = true ∧
    sessions σ !! 2%positive = Some s2 ∧ stalls (rw s2) = false ∧
    handler s2 = AtReceive ∧ 2%positive ∈ dom (clients σ) ∧
    delivered 2 tr = [a] ∧
    ∀ tr' σ', run σ tr' = Some σ' →
              (∀ ev, Deliver 2 ev ∉ tr') ∧ core σ' ≠ AtSelect.
Proof.
  intros a b tr.
  set (σ := default NewServer (run NewServer tr)).
  exists σ, (default (fresh_session true true) (sessions σ !! 1%positive)),
    (default (fresh_session true true) (sessions σ !! 2%positive)).
  assert (Hstuck : stuck_on 1 σ).
  { split; [exists b, [2%positive] | eexists _, _]; vm_compute; done. }
  split; [vm_compute; reflexivity|].
  split; [vm_compute; reflexivity|].
  split; [vm_compute; reflexivity|].
  split; [vm_compute; reflexivity|].
  split; [vm_compute; reflexivity|].
  split; [vm_compute; reflexivity|].
  split; [by_compute|].
  split; [vm_compute; reflexivity|].
  intros tr' σ' Hrun.
  destruct (stuck_on_run 1 σ tr' σ' Hstuck Hrun) as ([(ev & rest & Hcore) _] & Hno & _).
  split; [intros ev'; apply Hno | by rewrite Hcore].
Qed.

(** C2, amended. The send of line 40 is a rendezvous with the receive of
    line 80. When [listen] takes an event while the handler of every
    registered channel is at its receive, the fan-out goes through, one
    step per channel, and [listen] is back at its [select] with every such
    handler holding the frame of the event. While [listen] is blocked on a
    handler whose write never returns, it stays blocked, and no handler is
    handed any event. *)
Theorem handoff_is_rendezvous :
  (∀ σ ev q order,
     core σ = AtSelect → Notifier σ = ev :: q →
     Core.range_order (clients σ) order →
     (∀ c, c ∈ dom (clients σ) →
           ∃ s, sessions σ !! c = Some s ∧ handler s = AtReceive) →
     ∃ σ', run σ (Take ev order :: ((λ c, Deliver c ev) <$> order)) = Some σ' ∧
           core σ' = AtSelect ∧ Notifier σ' = q ∧ clients σ' = clients σ ∧
           ∀ c, c ∈ dom (clients σ) →
                ∃ s, sessions σ' !! c = Some s ∧
                     handler s = AtWrite (Spec.frame ev)) ∧
  (∀ σ c tr σ',
     stuck_on c σ → run σ tr = Some σ' →
     stuck_on c σ' ∧ (∀ c' ev, Deliver c' ev ∉ tr) ∧ clients σ' = clients σ).
Proof.
  split; [|intros σ c tr σ'; apply stuck_on_run].
  intros σ ev q order Hcore Hq Hro Hall.
  set (σ1 := with_core (resume ev order) (with_Notifier q σ)).
  assert (E : exec σ (Take ev order) = Some σ1).
  { unfold exec. rewrite Hq. by rewrite option_guard_True. }
  assert (Hmem : ∀ c, c ∈ order ↔ c ∈ dom (clients σ))
    by (intros c; by apply CoreFacts.range_order_elem_of).
  destruct (fanout_run σ1 ev order) as (σ' & Hrun & Hc' & Hcl & Hw).
  { apply Hro. }
  { done. }
  { intros c Hc. apply Hall. by apply Hmem. }
  exists σ'. cbn [run]. rewrite E. simpl. split; [done|]. split; [done|].
  split; [|split; [done|]].
  - by rewrite (deliveries_Notifier ev order σ1 σ' Hrun).
  - intros c Hc. apply Hw. by apply Hmem.
Qed.

Lemma handoff_is_rendezvous_witness :
  let a := String.list_byte_of_string "first" in
  let pre := [Connect 1 true false; Connect 2 true true; Open 1; Open 2;
              Join 1; Join 2; Emit a] in
  let σ := default NewServer (run NewServer pre) in
  let blocked := default NewServer
                   (run σ [Take a [2%positive; 1%positive]; Deliver 2 a;
                           Deliver 1 a; Written 1 true; Flushed 1;
                           Emit a; Take a [2%positive; 1%positive]]) in
  (∃ σ', run σ (Take a [2%positive; 1%positive]
                  :: ((λ c, Deliver c a) <$> [2%positive; 1%positive])) = Some σ' ∧
         core σ' = AtSelect) ∧
  (stuck_on 2 blocked ∧
   ∀ σ', run blocked [Emit a; Cancel 1] = Some σ' → stuck_on 2 σ').
Proof.
  intros a pre σ blocked.
  destruct handoff_is_rendezvous as [Hgo Hstay]. split.
  - destruct (Hgo σ a [] [2%positive; 1%positive]) as (σ' & Hrun & Hcore & _).
    + vm_compute. reflexivity.
    + vm_compute. reflexivity.
    + by_compute.
    + intros c Hc.
      assert (c = 1%positive ∨ c = 2%positive) as [-> | ->].
      { revert Hc. replace (dom (clients σ)) with ({[1%positive; 2%positive]} : gset positive)
          by (apply (bool_decide_unpack _); vm_compute; exact I).
        rewrite elem_of_union, !elem_of_singleton. tauto. }
      * eexists. split; vm_compute; reflexivity.
      * eexists. split; vm_compute; reflexivity.
    + exists σ'. split; [exact Hrun | exact Hcore].
  - assert (Hb : stuck_on 2 blocked).
    { split; [eexists _, _ | eexists _, _]; vm_compute; done. }
    split; [exact Hb|]. intros σ' Hrun.
    destruct (Hstay blocked 2%positive [Emit a; Cancel 1] σ' Hb Hrun) as [Hst _].
    exact Hst.
Defined.






(** ** The program and the loop on its own

    The registry of the program moves as [Core.update] says, with the
    handlers' sends on [newClients] and [closingClients] and the event
    source's sends on [Notifier] as the requests; the [range] of line 39 is
    entered with an order [Core.range_order] allows. *)
Lemma exec_request σ l σ' :
  exec σ l = Some σ' →
  clients σ' = from_option (Core.update (clients σ)) (clients σ) (request_of l) ∧
  (∀ ev order, l = Take ev order → Core.range_order (clients σ) order).
Proof.
  intros H. destruct l; exec_inv H; (split; [done|]); intros ev0 order0 Heq;
    simplify_eq; tauto.
Qed.

Lemma run_registry tr σ :
  run NewServer tr = Some σ →
  clients σ = Core.registry Core.no_clients (omap request_of tr).
Proof.
  revert σ. induction tr as [|l tr IH] using rev_ind; intros σ Hrun.
  { simpl in Hrun. by simplify_eq. }
  apply run_snoc in Hrun as (σ1 & Hrun & H).
  destruct (exec_request _ _ _ H) as [-> _]. rewrite (IH σ1 Hrun), omap_app.
  unfold Core.registry. rewrite foldl_app. simpl.
  by destruct (request_of l).
Qed.

End ServerFacts.

(** * Further facts about the program *)
Module ProgramFacts.
Import Server Program ServerFacts.
#[local] Opaque Fmt.Sprintf.

Lemma emitted_snoc tr l :
  emitted (tr ++ [l]) = emitted tr ++ match l with Emit ev => [ev] | _ => [] end.
Proof. unfold emitted. rewrite omap_app. f_equal. by destruct l. Qed.

Lemma taken_snoc tr l :
  taken (tr ++ [l]) = taken tr ++ match l with Take ev _ => [ev] | _ => [] end.
Proof. unfold taken. rewrite omap_app. f_equal. by destruct l. Qed.

Lemma notifier_fifo_inv (tr : list label) (σ : System) :
  run NewServer tr = Some σ →
  emitted tr = taken tr ++ Notifier σ ∧ length (Notifier σ) ≤ 1.
Proof.
  revert σ. induction tr as [|l tr IH] using rev_ind; intros σ Hrun.
  { simpl in Hrun. simplify_eq. split; [done | simpl; lia]. }
  apply run_snoc in Hrun as (σ1 & Hrun & H).
  destruct (IH σ1 Hrun) as [Heq Hlen].
  rewrite emitted_snoc, taken_snoc.
  destruct l; exec_inv H; rewrite ?app_nil_r; try done.
  all: try match goal with Hq : Notifier _ = _ :: _ |- _ => rewrite Hq in * end.
  all: rewrite Heq, <- app_assoc; (split; [done|]).
  all: rewrite ?length_app; simpl in *; lia.
Qed.



Lemma flushed_up_inv (tr : list label) (σ : System) (c : chan) (s : Session) :
  run NewServer tr = Some σ →
  sessions σ !! c = Some s →
  flushed_up s.
Proof.
  revert σ s. induction tr as [|l tr IH] using rev_ind; intros σ s Hrun Hs.
  { simpl in Hrun. simplify_eq. }
  apply run_snoc in Hrun as (σ1 & Hrun & H).
  destruct l; exec_inv H; lookup_cases; sys_simpl.
  all: try (by eapply IH).
  all: try match goal with
       | Hl : sessions _ !! _ = Some ?s0 |- _ =>
           pose proof (IH _ s0 Hrun Hl) as Hold
       end.
  all: unfold flushed_up in *; sys_simpl.
  all: repeat match goal with
       | H : handler _ = _ |- _ => rewrite H in *
       end.
  all: rewrite ?length_app; simpl; try done; try lia.
Qed.

(** X2. Along every run, whenever a handler waits at the receive of line
    80, every event handed to it so far has been passed to [rw.Write] as
    its frame, in order, and [Flush] has been called once for each. *)
Theorem flush_follows_write (tr : list label) (σ : System) (c : chan) (s : Session) :
  run NewServer tr = Some σ →
  sessions σ !! c = Some s →
  handler s = AtReceive →
  written (rw s) = Spec.frame <$> delivered c tr ∧
  flushes (rw s) = length (delivered c tr).
Proof.
  intros Hrun Hs Hh.
  pose proof (frames_inv tr σ c Hrun) as Hfr. rewrite Hs in Hfr.
  pose proof (flushed_up_inv tr σ c s Hrun Hs) as Hfl.
  unfold flushed_up, in_flight in *. rewrite Hh in *.
  rewrite app_nil_r in Hfr. rewrite <- Hfr by done.
  split; [done|]. by rewrite Hfl, Hfr, length_fmap by done.
Qed.

Lemma live_registry_inv (tr : list label) (σ : System) (c : chan) :
  run NewServer tr = Some σ →
  c ∈ dom (clients σ) ↔ ∃ s, sessions σ !! c = Some s ∧ live s.
Proof.
  revert σ. induction tr as [|l tr IH] using rev_ind; intros σ Hrun.
  { simpl in Hrun. simplify_eq. simpl. unfold Core.no_clients.
    rewrite dom_empty_L, lookup_empty. split; [set_solver | by intros (? & ? & _)]. }
  apply run_snoc in Hrun as (σ1 & Hrun & H).
  specialize (IH σ1 Hrun). pose proof (system_ok_run _ _ Hrun) as [Hok _].
  destruct l; exec_inv H; lookup_cases; sys_simpl.
  all: rewrite ?dom_insert_L, ?dom_delete_L, ?elem_of_union, ?elem_of_difference,
         ?elem_of_singleton.
  all: try done.
  all: try (rewrite <- IH; intuition congruence).
  all: try match goal with
       | Hl : sessions ?σ0 !! ?c0 = Some ?s0,
         IH : ?c0 ∈ dom (clients ?σ0) ↔ _ |- _ =>
           assert (Hold : c0 ∈ dom (clients σ0) ↔ live s0)
             by (rewrite IH; split; [intros (? & ? & ?); by simplify_eq | by eexists]);
           destruct (Hok _ _ Hl) as (_ & _ & Hw)
       | Hl : sessions ?σ0 !! ?c0 = None,
         IH : ?c0 ∈ dom (clients ?σ0) ↔ _ |- _ =>
           assert (Hold : c0 ∉ dom (clients σ0))
             by (rewrite IH; intros (? & ? & ?); congruence)
       end.
  all: clear IH.
  all: (split; [intros Hin; eexists; split; [done|] | intros (? & ? & Hlive); simplify_eq]).
  all: unfold live, joined in *; sys_simpl.
  all: repeat match goal with
       | H : handler _ = _ |- _ => rewrite H in *
       end.
  all: try (intuition congruence).
Qed.

(** X4. Along every run, a channel is in the registry exactly when its
    handler is past line 65 and has not left, and its watcher has not sent
    on [closingClients]. *)
Theorem registry_is_live_sessions (tr : list label) (σ : System) (c : chan) :
  run NewServer tr = Some σ →
  c ∈ dom (clients σ) ↔
  ∃ s, sessions σ !! c = Some s ∧
       joined s ∧ watcher s = Waiting ∧ handler s ≠ Exited.
Proof. apply live_registry_inv. Qed.

(** X5. Along every run, for a registered session whose context is done,
    also when it was done before the handler registered: whenever [listen]
    is at its [select] the watcher's send is enabled, and processing it
    removes this channel and no other. *)
Theorem close_enabled_when_done (tr : list label) (σ : System) (c : chan) (s : Session) :
  run NewServer tr = Some σ →
  c ∈ dom (clients σ) →
  sessions σ !! c = Some s → cancelled s = true →
  core σ = AtSelect →
  ∃ σ', exec σ (Close c) = Some σ' ∧ (c ∉ dom (clients σ')) ∧
        ∀ c', c' ≠ c → (c' ∈ dom (clients σ') ↔ c' ∈ dom (clients σ)).
Proof.
  intros Hrun Hin Hs Hc Hcore.
  apply (live_registry_inv tr σ c Hrun) in Hin as (s' & Hs' & _ & Hw & _).
  assert (s' = s) as -> by congruence.
  eexists. split.
  { unfold exec. rewrite Hs. simpl. by rewrite option_guard_True. }
  sys_simpl. split.
  - rewrite dom_delete_L, elem_of_difference, elem_of_singleton. tauto.
  - intros c' Hne. rewrite dom_delete_L, elem_of_difference, elem_of_singleton. tauto.
Qed.

(** X6. Along every run, a handler that is unwinding or has left after
    registering has had a panic of its transport: the loop of lines 79-83
    is left in no other way. *)
Theorem handler_leaves_by_panic_only (tr : list label) (σ : System) (c : chan) (s : Session) :
  run NewServer tr = Some σ →
  sessions σ !! c = Some s →
  handler s = AtDeferred ∨ handler s = Exited →
  Panic c ∈ tr.
Proof.
  revert σ s. induction tr as [|l tr IH] using rev_ind; intros σ s Hrun Hs Hh.
  { simpl in Hrun. simplify_eq. }
  apply run_snoc in Hrun as (σ1 & Hrun & H).
  rewrite elem_of_app, list_elem_of_singleton.
  destruct l; exec_inv H; lookup_cases; sys_simpl.
  all: try (by right).
  all: try (left; by eapply IH).
  all: try (destruct Hh; congruence).
  left. eapply IH; [done | done | by left].
Qed.

Lemma resume_send ev order ev0 todo :
  resume ev order = AtSend ev0 todo → ev0 = ev ∧ todo = order.
Proof. destruct order; simpl; [done|]. by intros [= -> ->]. Qed.

Lemma range_ok_inv (tr : list label) (σ : System) :
  run NewServer tr = Some σ → range_ok σ.
Proof.
  apply (run_invariant range_ok); [|done].
  intros σ1 l σ2 Hok H.
  destruct l; exec_inv H; unfold range_ok in *; sys_simpl.
  all: repeat match goal with
       | H : core _ = _ |- _ => rewrite H in *
       end; try done.
  all: destruct (resume _ _) as [|? ?] eqn:Hres; [done|].
  all: apply resume_send in Hres as [-> ->].
  - match goal with
    | H : _ ∧ _ ∧ Core.range_order _ _ |- _ => destruct H as (_ & _ & [Hnd Hset])
    end.
    split; [done|]. intros c Hc. rewrite <- Hset. by apply elem_of_list_to_set.
  - destruct Hok as [Hnd Hsub]. apply NoDup_cons in Hnd as [_ Hnd].
    split; [done|]. intros c' Hc'. apply Hsub. by right.
Qed.

Lemma member_joined (tr : list label) (σ : System) (c : chan) :
  run NewServer tr = Some σ → c ∈ dom (clients σ) → Join c ∈ tr.
Proof.
  revert σ. induction tr as [|l tr IH] using rev_ind; intros σ Hrun Hin.
  { simpl in Hrun. simplify_eq. simpl in Hin. unfold Core.no_clients in Hin.
    by rewrite dom_empty_L in Hin. }
  apply run_snoc in Hrun as (σ1 & Hrun & H).
  rewrite elem_of_app, list_elem_of_singleton.
  destruct l; exec_inv H.
  all: try (left; by eapply IH).
  - rewrite dom_insert_L, elem_of_union, elem_of_singleton in Hin.
    destruct Hin as [->|Hin]; [by right | left; by eapply IH].
  - rewrite dom_delete_L, elem_of_difference in Hin. left. eapply IH; [done|tauto].
  - rewrite dom_delete_L, elem_of_difference in Hin. left. eapply IH; [done|tauto].
Qed.

(** X7. Along every run, an event is handed to a handler only while its
    channel is in the registry: after [listen] took the channel from
    [newClients] and before it processed any Detach of it. *)
Theorem deliveries_to_members_only (tr1 tr2 : list label) (σ : System)
    (c : chan) (ev : event) :
  run NewServer (tr1 ++ Deliver c ev :: tr2) = Some σ →
  Join c ∈ tr1 ∧ (Close c ∉ tr1) ∧ (Unwind c ∉ tr1) ∧
  ∃ σ1, run NewServer tr1 = Some σ1 ∧ c ∈ dom (clients σ1).
Proof.
  intros Hrun. apply run_split in Hrun as (σ1 & Hrun1 & Hrun2).
  cbn [run] in Hrun2.
  destruct (exec σ1 (Deliver c ev)) as [σ2|] eqn:E; simpl in Hrun2; [|done].
  assert (Hin : c ∈ dom (clients σ1)).
  { pose proof (range_ok_inv _ _ Hrun1) as Hok.
    exec_inv E. unfold range_ok in Hok.
    match goal with H : core _ = _ |- _ => rewrite H in Hok end.
    apply Hok. by left. }
  assert (Hgone : ∀ l, l = Close c ∨ l = Unwind c → l ∉ tr1).
  { intros l Hl Hel. apply list_elem_of_split in Hel as (a & b & ->).
    apply run_split in Hrun1 as (σa & Hruna & Hrunb). cbn [run] in Hrunb.
    destruct (exec σa l) as [σb|] eqn:El; simpl in Hrunb; [|done].
    pose proof (system_ok_run _ _ Hruna) as Hok.
    assert (Hj : ∃ s', sessions σb !! c = Some s' ∧ joined s')
      by (apply (joined_after _ _ _ c Hok El); tauto).
    destruct (joined_kept_run _ _ _ c Hrunb Hj) as (_ & _ & Hdom).
    apply Hdom; [|done].
    destruct Hl as [-> | ->]; exec_inv El;
      rewrite dom_delete_L, elem_of_difference, elem_of_singleton; tauto. }
  split; [by apply (member_joined tr1 σ1)|].
  split; [apply Hgone; by left|]. split; [apply Hgone; by right|].
  by exists σ1.
Qed.

Lemma in_order_weaken c σ tr : in_order c σ tr → delivered c tr `sublist_of` taken tr.
Proof.
  unfold in_order. destruct (core σ) as [|ev todo]; [done|].
  intros (before & Heq & H). case_decide; [|done].
  rewrite Heq. by apply sublist_inserts_r.
Qed.

Lemma in_order_resume c σ tr ev todo before :
  core σ = resume ev todo →
  taken tr = before ++ [ev] →
  (if decide (c ∈ todo) then delivered c tr `sublist_of` before
   else delivered c tr `sublist_of` taken tr) →
  in_order c σ tr.
Proof.
  intros Hcore Heq H. unfold in_order. rewrite Hcore.
  destruct todo as [|c0 rest]; simpl.
  - rewrite decide_False in H by apply not_elem_of_nil. done.
  - by exists before.
Qed.

Lemma in_order_inv (tr : list label) (σ : System) (c : chan) :
  run NewServer tr = Some σ → in_order c σ tr.
Proof.
  revert σ. induction tr as [|l tr IH] using rev_ind; intros σ Hrun.
  { simpl in Hrun. simplify_eq. unfold in_order. simpl. constructor. }
  apply run_snoc in Hrun as (σ1 & Hrun & H).
  specialize (IH σ1 Hrun). pose proof (range_ok_inv _ _ Hrun) as Hok.
  destruct l.
  8: { (* Take *)
    exec_inv H.
    all: unfold in_order in IH;
      match goal with Hc : core _ = AtSelect |- _ => rewrite Hc in IH end.
    all: eapply (in_order_resume _ _ _ ev order (taken tr));
      [done | by rewrite taken_snoc | rewrite delivered_snoc, app_nil_r].
    all: case_decide; [done|]; rewrite taken_snoc; by apply sublist_inserts_r. }
  8: { (* Deliver *)
    exec_inv H. unfold in_order in IH. unfold range_ok in Hok.
    match goal with Hc : core _ = AtSend _ _ |- _ => rewrite Hc in IH, Hok end.
    destruct IH as (before & Heq & IH). destruct Hok as [Hnd _].
    apply NoDup_cons in Hnd as [Hnotin _].
    match goal with
    | |- in_order _ (with_session _ _ (with_core (resume _ ?rest) _)) _ =>
        eapply (in_order_resume _ _ _ ev rest before);
          [done | by rewrite taken_snoc, app_nil_r | ];
        rewrite delivered_snoc, taken_snoc, app_nil_r;
        destruct (decide (c0 = c)) as [->|Hne];
          [|rewrite app_nil_r; destruct (decide (c ∈ rest)) as [Hin|Hin]]
    end.
    - rewrite decide_True in IH by left. rewrite decide_False by done.
      rewrite Heq. by apply sublist_app.
    - rewrite decide_True in IH by (by right). done.
    - rewrite decide_False in IH; [done|].
      intros [?|?]%elem_of_cons; congruence. }
  all: exec_inv H; unfold in_order in *; sys_simpl.
  all: rewrite delivered_snoc, taken_snoc, !app_nil_r.
  all: try done.
  all: repeat match goal with
       | H : core _ = _ |- _ => rewrite H in *
       end; done.
Qed.

(** X8. Along every run, the events handed to a session are a
    subsequence of the events [listen] has taken from [Notifier], in the
    order it took them: none twice, none invented, none out of order. *)
Theorem handed_in_the_order_taken (tr : list label) (σ : System) (c : chan) :
  run NewServer tr = Some σ →
  delivered c tr `sublist_of` taken tr.
Proof. intros Hrun. eapply in_order_weaken. by apply in_order_inv. Qed.

(** X3. Along every run, the events put on [Notifier] are the events
    [listen] has taken followed by the events still in the channel, of
    which there is at most one; the send of line 108 goes through exactly
    when the channel is empty. *)
Theorem notifier_fifo (tr : list label) (σ : System) :
  run NewServer tr = Some σ →
  emitted tr = taken tr ++ Notifier σ ∧
  length (Notifier σ) ≤ 1 ∧
  (∀ ev, is_Some (exec σ (Emit ev)) ↔ Notifier σ = []).
Proof.
  intros Hrun. destruct (notifier_fifo_inv tr σ Hrun) as [Heq Hlen].
  split; [done|]. split; [done|].
  intros ev. unfold exec. destruct (Notifier σ) as [|e q]; simpl.
  - split; [done | by eexists].
  - split; [by intros [? ?] | done].
Qed.

Lemma deadlocked_step c σ l σ' :
  deadlocked c σ → exec σ l = Some σ' →
  deadlocked c σ' ∧ (∀ c' ev, l ≠ Deliver c' ev) ∧ l ≠ Unwind c ∧
  clients σ' = clients σ.
Proof.
  intros [(ev0 & rest & Hcore) (s & Hs & Hh)] H. unfold deadlocked.
  destruct l; exec_inv H; lookup_cases; try congruence.
  all: split; [|done].
  all: (split; [by eexists _, _|]).
  all: eexists; by sys_simpl.
Qed.

(** X10. If [listen], inside its [range], reaches the channel of a
    handler that is unwinding from a panic and blocked in the deferred send
    of line 68, both stay blocked in every continuation: the channel stays
    in the registry, the deferred Detach is never processed, and no handler
    is handed any event. *)
Theorem unwinding_handler_deadlocks (tr0 tr : list label) (σ σ' : System) (c : chan) :
  run NewServer tr0 = Some σ →
  deadlocked c σ →
  run σ tr = Some σ' →
  deadlocked c σ' ∧ c ∈ dom (clients σ') ∧
  (∀ c' ev, Deliver c' ev ∉ tr) ∧ (Unwind c ∉ tr).
Proof.
  intros Hrun0 Hd Hrun.
  assert (Hin : c ∈ dom (clients σ)).
  { pose proof (range_ok_inv _ _ Hrun0) as Hok. unfold range_ok in Hok.
    destruct Hd as [(ev & rest & Hcore) _]. rewrite Hcore in Hok.
    apply Hok. by left. }
  clear Hrun0. revert σ Hd Hin Hrun.
  induction tr as [|l tr IH]; intros σ Hd Hin Hrun; cbn [run] in Hrun.
  - simplify_eq. split; [done|]. split; [done|].
    split; [intros ? ?|]; apply not_elem_of_nil.
  - destruct (exec σ l) as [σ1|] eqn:E; simpl in Hrun; [|done].
    destruct (deadlocked_step _ _ _ _ Hd E) as (Hd1 & Hnd & Hnu & Hcl).
    destruct (IH σ1 Hd1) as (Hd' & Hin' & Hno & Hnu'); [by rewrite Hcl | done |].
    split; [done|]. split; [done|]. split.
    + intros c' ev. apply not_elem_of_cons. split; [apply not_eq_sym, Hnd | apply Hno].
    + apply not_elem_of_cons. split; [by apply not_eq_sym | done].
Qed.

(** X11. The payload is written as it is: the frame of a payload that
    holds two newlines followed by [data: ] is, byte for byte, the frame of
    what precedes them followed by the frame of what follows. *)
Theorem payload_is_not_escaped (p q : list byte) :
  Fmt.Sprintf Fmt.frame_format
    [p ++ [x0a; x0a] ++ String.list_byte_of_string "data: " ++ q] =
  (fp ← Fmt.Sprintf Fmt.frame_format [p];
   fq ← Fmt.Sprintf Fmt.frame_format [q];
   Some (fp ++ fq)).
Proof.
  rewrite !Sprintf_frame. simpl. unfold Spec.frame.
  by rewrite <- !app_assoc.
Qed.


Lemma flush_follows_write_witness :
  let a := String.list_byte_of_string "tick" in
  let tr := [Connect 1 true false; Open 1; Join 1; Emit a; Take a [1%positive];
             Deliver 1 a; Written 1 false; Flushed 1] in
  let σ := default NewServer (run NewServer tr) in
  let s := default (fresh_session true false) (sessions σ !! 1%positive) in
  run NewServer tr = Some σ ∧ sessions σ !! 1%positive = Some s ∧
  handler s = AtReceive ∧
  written (rw s) = [Spec.frame a] ∧ flushes (rw s) = 1.
Proof.
  intros a tr σ s.
  assert (Hrun : run NewServer tr = Some σ) by (vm_compute; reflexivity).
  assert (Hs : sessions σ !! 1%positive = Some s) by (vm_compute; reflexivity).
  assert (Hh : handler s = AtReceive) by (vm_compute; reflexivity).
  split; [exact Hrun|]. split; [exact Hs|]. split; [exact Hh|].
  destruct (flush_follows_write tr σ 1 s Hrun Hs Hh) as [Hw Hf].
  split; [rewrite Hw | rewrite Hf]; vm_compute; reflexivity.
Defined.

Lemma notifier_fifo_witness :
  let a := String.list_byte_of_string "one" in
  let b := String.list_byte_of_string "two" in
  let tr := [Emit a; Take a []; Emit b] in
  let σ := default NewServer (run NewServer tr) in
  run NewServer tr = Some σ ∧
  emitted tr = taken tr ++ Notifier σ ∧ length (Notifier σ) ≤ 1 ∧
  exec σ (Emit a) = None.
Proof.
  intros a b tr σ.
  assert (Hrun : run NewServer tr = Some σ) by (vm_compute; reflexivity).
  split; [exact Hrun|].
  destruct (notifier_fifo tr σ Hrun) as (Heq & Hlen & Hfull).
  split; [exact Heq|]. split; [exact Hlen|].
  destruct (exec σ (Emit a)) eqn:E; [|reflexivity].
  assert (Hn : Notifier σ = []) by (apply (Hfull a); rewrite E; by eexists).
  vm_compute in Hn. discriminate.
Defined.

Lemma registry_is_live_sessions_witness :
  let tr := [Connect 1 true false; Open 1; Join 1; Connect 2 true false; Open 2;
             Join 2; Cancel 1; Close 1] in
  let σ := default NewServer (run NewServer tr) in
  run NewServer tr = Some σ ∧
  (2%positive ∈ dom (clients σ) ↔
   ∃ s, sessions σ !! 2%positive = Some s ∧
        joined s ∧ watcher s = Waiting ∧ handler s ≠ Exited) ∧
  2%positive ∈ dom (clients σ) ∧ 1%positive ∉ dom (clients σ).
Proof.
  intros tr σ.
  assert (Hrun : run NewServer tr = Some σ) by (vm_compute; reflexivity).
  split; [exact Hrun|].
  split; [exact (registry_is_live_sessions tr σ 2 Hrun)|].
  split; by_compute.
Defined.

Lemma close_enabled_when_done_witness :
  let tr := [Connect 1 true false; Cancel 1; Open 1; Join 1] in
  let σ := default NewServer (run NewServer tr) in
  let s := default (fresh_session true false) (sessions σ !! 1%positive) in
  run NewServer tr = Some σ ∧ 1%positive ∈ dom (clients σ) ∧
  sessions σ !! 1%positive = Some s ∧ cancelled s = true ∧ core σ = AtSelect ∧
  ∃ σ', exec σ (Close 1) = Some σ' ∧ 1%positive ∉ dom (clients σ').
Proof.
  intros tr σ s.
  assert (Hrun : run NewServer tr = Some σ) by (vm_compute; reflexivity).
  assert (Hin : 1%positive ∈ dom (clients σ)) by by_compute.
  assert (Hs : sessions σ !! 1%positive = Some s) by (vm_compute; reflexivity).
  assert (Hc : cancelled s = true) by (vm_compute; reflexivity).
  assert (Hcore : core σ = AtSelect) by (vm_compute; reflexivity).
  split; [exact Hrun|]. split; [exact Hin|]. split; [exact Hs|].
  split; [exact Hc|]. split; [exact Hcore|].
  destruct (close_enabled_when_done tr σ 1 s Hrun Hin Hs Hc Hcore)
    as (σ' & Hex & Hout & _).
  exists σ'. split; [exact Hex | exact Hout].
Defined.

Lemma handler_leaves_by_panic_only_witness :
  let a := String.list_byte_of_string "tick" in
  let tr := [Connect 1 true false; Open 1; Join 1; Emit a; Take a [1%positive];
             Deliver 1 a; Panic 1; Unwind 1] in
  let σ := default NewServer (run NewServer tr) in
  let s := default (fresh_session true false) (sessions σ !! 1%positive) in
  run NewServer tr = Some σ ∧ sessions σ !! 1%positive = Some s ∧
  handler s = Exited ∧ Panic 1 ∈ tr.
Proof.
  intros a tr σ s.
  assert (Hrun : run NewServer tr = Some σ) by (vm_compute; reflexivity).
  assert (Hs : sessions σ !! 1%positive = Some s) by (vm_compute; reflexivity).
  assert (Hh : handler s = Exited) by (vm_compute; reflexivity).
  split; [exact Hrun|]. split; [exact Hs|]. split; [exact Hh|].
  apply (handler_leaves_by_panic_only tr σ 1 s Hrun Hs). right. exact Hh.
Defined.

Lemma deliveries_to_members_only_witness :
  let a := String.list_byte_of_string "tick" in
  let tr1 := [Connect 1 true false; Open 1; Join 1; Emit a; Take a [1%positive]] in
  let σ := default NewServer (run NewServer (tr1 ++ Deliver 1 a :: [])) in
  run NewServer (tr1 ++ Deliver 1 a :: []) = Some σ ∧
  Join 1 ∈ tr1 ∧ (Close 1 ∉ tr1) ∧ (Unwind 1 ∉ tr1).
Proof.
  intros a tr1 σ.
  assert (Hrun : run NewServer (tr1 ++ Deliver 1 a :: []) = Some σ)
    by (vm_compute; reflexivity).
  split; [exact Hrun|].
  destruct (deliveries_to_members_only tr1 [] σ 1 a Hrun) as (Hj & Hc & Hu & _).
  split; [exact Hj|]. split; [exact Hc | exact Hu].
Defined.

Lemma handed_in_the_order_taken_witness :
  let a := String.list_byte_of_string "one" in
  let b := String.list_byte_of_string "two" in
  let tr := [Emit a; Take a []; Connect 1 true false; Open 1; Join 1;
             Emit b; Take b [1%positive]; Deliver 1 b] in
  let σ := default NewServer (run NewServer tr) in
  run NewServer tr = Some σ ∧
  delivered 1 tr = [b] ∧ taken tr = [a; b] ∧
  delivered 1 tr `sublist_of` taken tr.
Proof.
  intros a b tr σ.
  assert (Hrun : run NewServer tr = Some σ) by (vm_compute; reflexivity).
  split; [exact Hrun|]. split; [vm_compute; reflexivity|].
  split; [vm_compute; reflexivity|].
  exact (handed_in_the_order_taken tr σ 1 Hrun).
Defined.

Lemma unwinding_handler_deadlocks_witness :
  let a := String.list_byte_of_string "one" in
  let b := String.list_byte_of_string "two" in
  let tr0 := [Connect 1 true false; Open 1; Join 1; Emit a; Take a [1%positive];
              Deliver 1 a; Panic 1; Emit b; Take b [1%positive]] in
  let σ := default NewServer (run NewServer tr0) in
  let tr := [Cancel 1; Connect 2 true false; Open 2] in
  let σ' := default NewServer (run σ tr) in
  run NewServer tr0 = Some σ ∧ deadlocked 1 σ ∧ run σ tr = Some σ' ∧
  deadlocked 1 σ' ∧ 1%positive ∈ dom (clients σ').
Proof.
  intros a b tr0 σ tr σ'.
  assert (Hrun0 : run NewServer tr0 = Some σ) by (vm_compute; reflexivity).
  assert (Hd : deadlocked 1 σ).
  { split; [eexists _, _ | eexists]; vm_compute; done. }
  assert (Hrun : run σ tr = Some σ') by (vm_compute; reflexivity).
  split; [exact Hrun0|]. split; [exact Hd|]. split; [exact Hrun|].
  destruct (unwinding_handler_deadlocks tr0 tr σ σ' 1 Hrun0 Hd Hrun)
    as (Hd' & Hin & _).
  split; [exact Hd' | exact Hin].
Defined.

(** The watcher, once it has sent, and the handler, once it has left, take
    no further step. *)
Lemma spent_kept σ l σ' c s :
  system_ok σ →
  exec σ l = Some σ' → sessions σ !! c = Some s →
  ∃ s', sessions σ' !! c = Some s' ∧
        (watcher s = Gone → watcher s' = Gone ∧ l ≠ Close c) ∧
        (handler s = Exited → handler s' = Exited ∧ l ≠ Unwind c).
Proof.
  intros [Hok _] H Hs. destruct (Hok c s Hs) as (_ & _ & Hj). unfold joined in Hj.
  destruct l; exec_inv H; lookup_cases.
  all: eexists; (split; [done|]); sys_simpl.
  all: split; intros Hg; (split; [|congruence]).
  all: try done; try congruence.
  (* the handler registers: its watcher has not been started *)
  exfalso. apply Hj. by rewrite Hg.
Qed.

Lemma spent_kept_run σ tr σ' c s :
  system_ok σ →
  run σ tr = Some σ' → sessions σ !! c = Some s →
  (watcher s = Gone → Close c ∉ tr) ∧ (handler s = Exited → Unwind c ∉ tr).
Proof.
  revert σ s. induction tr as [|l tr IH]; intros σ s Hok Hrun Hs; cbn [run] in Hrun.
  - split; intros _; apply not_elem_of_nil.
  - destruct (exec σ l) as [σ1|] eqn:E; simpl in Hrun; [|done].
    destruct (spent_kept _ _ _ c s Hok E Hs) as (s1 & Hs1 & Hw & Hh).
    destruct (IH σ1 s1 (system_ok_step _ _ _ Hok E) Hrun Hs1) as [IHw IHh].
    split; intros Hg; apply not_elem_of_cons.
    + destruct (Hw Hg) as [Hg1 Hne]. split; [by apply not_eq_sym | by apply IHw].
    + destruct (Hh Hg) as [Hg1 Hne]. split; [by apply not_eq_sym | by apply IHh].
Qed.

(** X9. Along every run, the watcher sends the channel of its session on
    [closingClients] at most once, and so does the deferred call; both may
    send, one after the other. *)
Theorem detach_sent_once_per_path (tr1 tr2 : list label) (l : label) (σ : System)
    (c : chan) :
  run NewServer (tr1 ++ l :: tr2) = Some σ →
  l = Close c ∨ l = Unwind c →
  l ∉ tr2.
Proof.
  intros Hrun Hl. apply run_split in Hrun as (σ1 & Hrun1 & Hrun2). cbn [run] in Hrun2.
  destruct (exec σ1 l) as [σ2|] eqn:E; simpl in Hrun2; [|done].
  assert (Hok : system_ok σ2)
    by (eapply system_ok_step; [by eapply system_ok_run | done]).
  destruct Hl as [-> | ->]; exec_inv E.
  all: match type of Hrun2 with
       | run (with_session _ ?s1 _) _ = _ =>
           destruct (spent_kept_run _ _ _ c s1 Hok Hrun2) as [Hw Hh];
             [sys_simpl; by rewrite lookup_insert_eq|]
       end.
  - by apply Hw.
  - by apply Hh.
Qed.

Lemma detach_sent_once_per_path_witness :
  let a := String.list_byte_of_string "tick" in
  let tr1 := [Connect 1 true false; Open 1; Join 1; Emit a; Take a [1%positive];
              Deliver 1 a; Cancel 1] in
  let tr2 := [Panic 1; Unwind 1] in
  let σ := default NewServer (run NewServer (tr1 ++ Close 1 :: tr2)) in
  run NewServer (tr1 ++ Close 1 :: tr2) = Some σ ∧
  (Close 1 ∉ tr2) ∧ Unwind 1 ∈ tr2.
Proof.
  intros a tr1 tr2 σ.
  assert (Hrun : run NewServer (tr1 ++ Close 1 :: tr2) = Some σ)
    by (vm_compute; reflexivity).
  split; [exact Hrun|].
  split; [|by_compute].
  apply (detach_sent_once_per_path tr1 tr2 (Close 1) σ 1 Hrun). left. reflexivity.
Defined.
End ProgramFacts.

(** * Further facts about the loop *)
Module LoopFacts.
Import Core Spec CoreFacts.

Lemma received_none clients rs outs clients' s :
  listen clients rs outs clients' →
  s ∉ dom clients → Attach s ∉ rs →
  received s (concat outs) = [] ∧ s ∉ dom clients'.
Proof.
  induction 1 as [|clients r rs out outs c1 c2 Hstep _ IH]; intros Hs Hno.
  - done.
  - apply not_elem_of_cons in Hno as [Hr Hno].
    rewrite concat_cons, received_app, (listen_step_received _ _ _ _ s Hstep).
    assert (Hs1 : s ∉ dom c1).
    { apply listen_step_update in Hstep as ->. destruct r as [s0|s0|ev]; simpl.
      - rewrite dom_insert_L, elem_of_union, elem_of_singleton.
        intros [->|?]; [by apply Hr | done].
      - rewrite dom_delete_L, elem_of_difference. tauto.
      - done. }
    destruct (IH Hs1 Hno) as [-> Hout]. split; [|done].
    destruct r; [done | done |]. by rewrite decide_False.
Qed.

(** X12. A sink is handed nothing by the iterations that precede the
    first Attach of it: events published before a client registers are not
    kept for it. *)
Theorem nothing_before_attach (pre post : list request) (outs : list (list effect))
    (clients' : gmap chan bool) (s : chan) :
  listen no_clients (pre ++ post) outs clients' →
  Attach s ∉ pre →
  received s (concat (take (length pre) outs)) = [].
Proof.
  intros Hrun Hno.
  apply listen_app_inv in Hrun as (o1 & o2 & -> & Hlen & Hpre & _).
  rewrite <- Hlen, take_app_length.
  apply (received_none _ _ _ _ s Hpre); [|done].
  unfold no_clients. rewrite dom_empty_L. apply not_elem_of_empty.
Qed.

Lemma nothing_before_attach_witness :
  let a := String.list_byte_of_string "one" in
  let b := String.list_byte_of_string "two" in
  let pre := [Attach 1; Publish a] in
  let post := [Attach 2; Publish b] in
  let outs := listen_exec no_clients (pre ++ post) in
  listen no_clients (pre ++ post) outs (registry no_clients (pre ++ post)) ∧
  (Attach 2 ∉ pre) ∧
  received 2 (concat (take (length pre) outs)) = [] ∧
  received 2 (concat outs) = [b].
Proof.
  intros a b pre post outs.
  assert (Hrun : listen no_clients (pre ++ post) outs (registry no_clients (pre ++ post)))
    by apply listen_exec_sound.
  assert (Hno : Attach 2 ∉ pre) by by_compute.
  split; [exact Hrun|]. split; [exact Hno|].
  split; [exact (nothing_before_attach pre post outs _ 2 Hrun Hno)|].
  vm_compute. reflexivity.
Defined.

End LoopFacts.
